(** * Discord utility bot: a shallow embedding of [main.py]

    The bot has five commands ([h], [t], [l], [c], [e]).  This development
    embeds the parts of [main.py] that carry behaviour: the language
    registry ([get_lang_code], [key_from_value]), message delivery
    ([return_message]), the translation handler [t] with its annotation
    stripping, the listing [l] with its page navigation loop, the calculator
    [c], the echo [e] and the keys read at start-up ([fetch_key]).

    Conventions.
    - Python [str] values are modelled as lists of characters ([text]);
      the case and whitespace predicates are the ASCII restrictions of
      Python's ([str.lower], [str.title], [str.isspace], the regex class
      [\s]): the embedding describes the program on ASCII text.
    - A [dict] is an association list in insertion order, which is the
      order [dict.items()] iterates in.
    - Coroutines are modelled by the list of effects they perform, in
      order, together with how they finish (a return or a raised
      exception).  The requests to Discord (reply, send, edit, reactions)
      are taken to succeed: a run in which Discord refuses one is outside
      the embedding, and no statement says that a handler cannot fail
      there. *)

From Stdlib Require Import List Ascii String ZArith Lia Bool Arith PeanoNat.
From Stdlib Require Import DecimalString DecimalPos.
Import ListNotations.

Open Scope string_scope.
Open Scope nat_scope.
Open Scope list_scope.

(** ** Text *)

Definition text := list ascii.

(** String literals are read as [text]. *)
Coercion list_ascii_of_string : string >-> list.

Definition text_eq_dec : forall a b : text, {a = b} + {a <> b} :=
  list_eq_dec ascii_dec.

Definition text_eqb (a b : text) : bool :=
  if text_eq_dec a b then true else false.

Definition code_in (lo hi : nat) (c : ascii) : bool :=
  (lo <=? nat_of_ascii c) && (nat_of_ascii c <=? hi).

Definition is_upper (c : ascii) : bool := code_in 65 90 c.
Definition is_lower (c : ascii) : bool := code_in 97 122 c.
Definition is_alpha (c : ascii) : bool := is_upper c || is_lower c.
Definition is_digit (c : ascii) : bool := code_in 48 57 c.

(** [str.isspace] and the regex class [\s] on ASCII: TAB, LF, VT, FF, CR,
    the four separators FS..US and the space. *)
Definition is_space (c : ascii) : bool := code_in 9 13 c || code_in 28 32 c.

Definition to_lower (c : ascii) : ascii :=
  if is_upper c then ascii_of_nat (nat_of_ascii c + 32) else c.

Definition to_upper (c : ascii) : ascii :=
  if is_lower c then ascii_of_nat (nat_of_ascii c - 32) else c.

(** [s.lower()] and [s.upper()] on ASCII text: the letters A to Z and a to z
    move, every other character stays.  Python maps the cased characters of
    all of Unicode, and [upper] can change the length there; a statement that
    needs more of the two than what they do to ASCII text carries
    [is_ascii]. *)
Definition lower (s : text) : text := map to_lower s.
Definition upper (s : text) : text := map to_upper s.

(** [s.title()]: a cased character is upper-cased when the character before
    it is not cased, and lower-cased otherwise. *)
Fixpoint title_from (previous_is_cased : bool) (s : text) : text :=
  match s with
  | [] => []
  | c :: rest =>
      (if previous_is_cased then to_lower c else to_upper c)
        :: title_from (is_alpha c) rest
  end.

Definition title (s : text) : text := title_from false s.

Fixpoint lstrip (s : text) : text :=
  match s with
  | [] => []
  | c :: rest => if is_space c then lstrip rest else s
  end.

Definition rstrip (s : text) : text := rev (lstrip (rev s)).

(** [s.strip()] *)
Definition strip (s : text) : text := rstrip (lstrip s).

(** [s.replace(old, new)] for a one-character [old]. *)
Definition replace_char (old : ascii) (new : text) (s : text) : text :=
  flat_map (fun c => if ascii_dec c old then new else [c]) s.

(** [sep.join(parts)] *)
Fixpoint join (sep : text) (parts : list text) : text :=
  match parts with
  | [] => []
  | [x] => x
  | x :: rest => x ++ sep ++ join sep rest
  end.

(** [s[i:j]] for [0 <= i <= j]. *)
Definition slice {A} (s : list A) (i j : nat) : list A :=
  firstn (j - i) (skipn i s).

(** [str(n)] for an [int]. *)
Definition str_of_int (n : Z) : text :=
  NilZero.string_of_int (Z.to_int n).

(** ** Language registry *)

(** [LANGUAGES] is the dictionary returned by the translation library,
    display name to code.  It is not part of [main.py]; every definition
    that reads it takes it as a parameter. *)
Definition language_table := list (text * text).

(** [value in item] for a two-element tuple. *)
Definition in_item (value : text) (item : text * text) : bool :=
  text_eqb value (fst item) || text_eqb value (snd item).

(** [key_from_value]: the key of the first item whose value is [value]. *)
Fixpoint key_from_value (dictionary : language_table) (value : text)
  : option text :=
  match dictionary with
  | [] => None
  | item :: rest =>
      if text_eqb value (snd item) then Some (fst item)
      else key_from_value rest value
  end.

(** The [for l in LANGUAGES.items()] loop of [get_lang_code]. *)
Fixpoint table_lookup (items : language_table) (dest_lang : text)
  : option text :=
  match items with
  | [] => None
  | l :: rest =>
      if in_item dest_lang l then Some (snd l)
      else table_lookup rest dest_lang
  end.

(** The special cases for Chinese that follow the loop. *)
Definition special_case (dest_lang : text) : option text :=
  if text_eqb dest_lang "chinese" || text_eqb dest_lang "zh" then Some ("zh-CN" : text)
  else if text_eqb dest_lang "zh-tw" then Some ("zh-TW" : text)
  else if text_eqb dest_lang "zh-cn" then Some ("zh-CN" : text)
  else None.

Definition get_lang_code (LANGUAGES : language_table) (dest_lang : text)
  : option text :=
  let dest_lang := lower dest_lang in
  match table_lookup LANGUAGES dest_lang with
  | Some code => Some code
  | None => special_case dest_lang
  end.

(** [src_lang in LANGUAGES.values()] *)
Definition in_values (LANGUAGES : language_table) (code : text) : bool :=
  existsb (fun item => text_eqb code (snd item)) LANGUAGES.

(** ** Exceptions and effects *)

(** The exception classes the handlers tell apart.  [OtherException] stands
    for any other subclass of [Exception]; [NonException] for a
    [BaseException] outside [Exception] (a cancellation, an exit). *)
Inductive exception_class :=
| ValueError | NameError | AttributeError | TypeError | ZeroDivisionError
| IndexError | OtherException | NonException.

(** An exception instance: its class and [str(e)]. *)
Record exception := mkException {
  exc_class : exception_class;
  exc_str : text
}.

(** [except Exception] *)
Definition is_Exception (e : exception) : bool :=
  match exc_class e with NonException => false | _ => true end.

Inductive emoji := Back | Forward | OtherEmoji (name : text).

(** What a handler does to the outside world, in the order it does it. *)
Inductive effect :=
| Reply (content : text)            (* await ctx.message.reply(content) *)
| Send (content : text)             (* await ctx.send(content) *)
| Print (line : text)               (* print(line) *)
| FetchMessage (message_id : Z)     (* await ctx.channel.fetch_message(id) *)
| Detect (content : text)           (* single_detection(content, api_key=...) *)
| Translate (source target content : text)
                                    (* GoogleTranslator(source, target).translate(content) *)
| AddReaction (e : emoji)           (* await message.add_reaction(e) *)
| Edit (content : text)             (* await message.edit(content=content) *)
| RemoveReaction (e : emoji) (user : Z).
                                    (* await message.remove_reaction(reaction, user) *)

(** How a computation ends.  [Unmodelled] marks a Python behaviour that this
    embedding does not describe (for instance floating point); nothing is
    claimed about a run that reaches it. *)
Inductive outcome (A : Type) :=
| Returned (a : A)
| Raised (e : exception)
| Unmodelled.

Arguments Returned {A} a.
Arguments Raised {A} e.
Arguments Unmodelled {A}.

(** A computation: the effects performed, then the outcome. *)
Definition io (A : Type) : Type := list effect * outcome A.

Definition ret {A} (a : A) : io A := ([], Returned a).

Definition bind {A B} (m : io A) (k : A -> io B) : io B :=
  match m with
  | (done, Returned a) => let (more, o) := k a in (done ++ more, o)
  | (done, Raised e) => (done, Raised e)
  | (done, Unmodelled) => (done, Unmodelled)
  end.

(** An effect that succeeds.  In the program an awaited request to Discord
    can raise; the embedding follows the runs in which none does. *)
Definition perform (f : effect) : io unit := ([f], Returned tt).
Definition raise {A} (e : exception) : io A := ([], Raised e).
Definition unmodelled {A} : io A := ([], Unmodelled).

(** The result of a call into a library or service. *)
Definition call {A} (f : effect) (result : outcome A) : io A := ([f], result).

Notation "x <- m ;; k" := (bind m (fun x => k))
  (at level 61, m at next level, right associativity).
Notation "m ;;; k" := (bind m (fun _ => k))
  (at level 61, right associativity).

(** [try: body  except ...: handlers].  [handlers e] is the body of the first
    [except] clause that matches [e], or [None] when none does.  An exception
    raised inside a clause is not offered to the other clauses. *)
Definition try_except {A} (body : io A) (handlers : exception -> option (io A))
  : io A :=
  match body with
  | (done, Raised e) =>
      match handlers e with
      | Some handler => let (more, o) := handler in (done ++ more, o)
      | None => (done, Raised e)
      end
  | finished => finished
  end.

(** [for x in xs: body x] *)
Fixpoint for_each {A} (xs : list A) (body : A -> io unit) : io unit :=
  match xs with
  | [] => ret tt
  | x :: rest => body x ;;; for_each rest body
  end.

Definition effects {A} (m : io A) : list effect := fst m.
Definition result {A} (m : io A) : outcome A := snd m.

(** ** Message delivery *)

Definition MAX_MESSAGE_LENGTH : nat := 2000.

(** [range(start, stop, step)] for [step > 0]. *)
Definition range (start stop step : nat) : list nat :=
  map (fun k => start + k * step) (seq 0 ((stop - start + (step - 1)) / step)).

Definition return_message (content : text) : io unit :=
  (* Make the first chunk a reply *)
  perform (Reply (slice content 0 MAX_MESSAGE_LENGTH)) ;;;
  (* Send all other chunks *)
  for_each (range MAX_MESSAGE_LENGTH (List.length content) MAX_MESSAGE_LENGTH)
    (fun i => perform (Send (slice content i (i + MAX_MESSAGE_LENGTH)))).

(** ** Annotation stripping

    [re.sub(pattern, '', msg_content)] with
    [pattern = \s*\((?:keys) -> (?:keys)\)\s*], where [keys] is the
    alternation of the escaped, title-cased display names.  No flag is
    passed, so the match is case-sensitive. *)

(** The alternatives of [(?:keys)].  Joining no key at all gives the empty
    pattern, which matches the empty string. *)
Definition alternatives (LANGUAGES : language_table) : list text :=
  match LANGUAGES with
  | [] => [[]]
  | _ => map (fun item => title (fst item)) LANGUAGES
  end.

(** [Some rest] when [s] is [p ++ rest]. *)
Fixpoint strip_prefix (p s : text) : option text :=
  match p, s with
  | [], _ => Some s
  | a :: p', b :: s' => if ascii_dec a b then strip_prefix p' s' else None
  | _ :: _, [] => None
  end.

(** An alternation followed by the rest of the pattern [k]: the alternatives
    are tried in order, and the next one is tried when the rest fails. *)
Fixpoint match_alternatives {A} (alts : list text) (s : text)
  (k : text -> option A) : option A :=
  match alts with
  | [] => None
  | a :: alts' =>
      match strip_prefix a s with
      | Some rest =>
          match k rest with
          | Some r => Some r
          | None => match_alternatives alts' s k
          end
      | None => match_alternatives alts' s k
      end
  end.

(** The end of the pattern, [\)\s*]. *)
Definition close_paren (s4 : text) : option text :=
  match s4 with
  | ")"%char :: s5 => Some (lstrip s5)
  | _ => None
  end.

(** A match of the pattern at the start of [s]; the result is what is left
    of [s] after the match. *)
Definition match_annotation (alts : list text) (s : text) : option text :=
  match lstrip s with
  | "("%char :: s1 =>
      match_alternatives alts s1 (fun s2 =>
        match strip_prefix " -> " s2 with
        | Some s3 => match_alternatives alts s3 close_paren
        | None => None
        end)
  | _ => None
  end.

(** [re.sub]: scan from the left; a match is dropped and the scan goes on
    after it, any other character is kept.  [inside] counts the characters
    of the current match still to drop. *)
Fixpoint sub_from (alts : list text) (inside : nat) (s : text) : text :=
  match s with
  | [] => []
  | c :: rest =>
      match inside with
      | S n => sub_from alts n rest
      | O =>
          match match_annotation alts s with
          | Some remainder =>
              sub_from alts (List.length rest - List.length remainder) rest
          | None => c :: sub_from alts 0 rest
          end
      end
  end.

Definition re_sub_annotation (LANGUAGES : language_table) (s : text) : text :=
  sub_from (alternatives LANGUAGES) 0 s.

(** [re.sub(pattern, '', msg_content).strip()] *)
Definition strip_annotation (LANGUAGES : language_table) (msg_content : text)
  : text :=
  strip (re_sub_annotation LANGUAGES msg_content).

(** ** The translate command [t] *)

Definition nl : text := [ascii_of_nat 10].

(** [str(v)] inside an f-string for a value that is a [str] or [None]. *)
Definition str_of_optional (v : option text) : text :=
  match v with
  | Some s => s
  | None => "None"
  end.

(** The fetched message, as far as [t] reads it. *)
Record message := mkMessage {
  content : text;
  author_id : Z
}.

(** The calls that leave the process.  Each may return or raise. *)
Record services := mkServices {
  fetch_message : Z -> outcome message;
  single_detection : text -> outcome text;
  translate : text -> text -> text -> outcome (option text)
}.

(** [not translated_msg] *)
Definition falsy (translated_msg : option text) : bool :=
  match translated_msg with
  | None | Some [] => true
  | Some _ => false
  end.

(** [key.title()] on the result of [key_from_value], which may be [None]. *)
Definition title_of (key : option text) : io text :=
  match key with
  | Some k => ret (title k)
  | None =>
      raise (mkException AttributeError
               "'NoneType' object has no attribute 'title'")
  end.

Section Translate.

Variable LANGUAGES : language_table.
(** The bot's own user id, [ID]. *)
Variable ID : Z.
Variable world : services.

Definition USAGE_ERROR : text :=
  nl ++ "Usage: Reply to a message with `-t <language>`.".

(** The body of the [try] block.  [reference] is
    [ctx.message.reference] ([None] when the command is not a reply). *)
Definition t_body (reference : option Z) (dest_lang : text) : io unit :=
  match reference with
  | None =>
      (* Handles invalid execution *)
      perform (Reply ("Error: No Message Found." ++ USAGE_ERROR))
  | Some msg_id =>
      (* Get destination language *)
      let dest_lang := get_lang_code LANGUAGES dest_lang in
      match dest_lang with
      | None =>
          (* Handles invalid destination language *)
          perform (Reply ("Error: `" ++ str_of_optional dest_lang
                            ++ "` is not a valid language." ++ USAGE_ERROR))
      | Some dest_code =>
          (* Get replied message *)
          msg <- call (FetchMessage msg_id) (fetch_message world msg_id) ;;
          let msg_content := replace_char "*" [] (strip (content msg)) in
          (* Remove translation suffix if it's a retranslation *)
          let msg_content :=
            if (author_id msg =? ID)%Z
            then strip_annotation LANGUAGES msg_content
            else msg_content in
          match msg_content with
          | [] =>
              (* Handles empty message *)
              perform (Reply ("Error: No Message Found." ++ nl ++ USAGE_ERROR))
          | _ =>
              (* Detect source language *)
              src_lang <- call (Detect msg_content)
                               (single_detection world msg_content) ;;
              (* Special case for Chinese *)
              let src_lang : text :=
                if text_eqb src_lang "zh" then "zh-CN" else src_lang in
              (* Handles invalid source language *)
              if negb (in_values LANGUAGES src_lang) then
                perform (Reply ("Error: `" ++ src_lang
                                  ++ "` is not a supported source language."
                                  ++ nl ++ USAGE_ERROR))
              else
                (* Translate message *)
                translated_msg <-
                  call (Translate src_lang dest_code msg_content)
                       (translate world src_lang dest_code msg_content) ;;
                (* Handles API error *)
                if falsy translated_msg then
                  perform (Reply ("Error: Translation failed." ++ nl
                                    ++ USAGE_ERROR))
                else
                  (* Output translated text *)
                  src_name <- title_of (key_from_value LANGUAGES src_lang) ;;
                  dest_name <- title_of (key_from_value LANGUAGES dest_code) ;;
                  return_message
                    ("**" ++ str_of_optional translated_msg ++ "** ("
                       ++ src_name ++ " -> " ++ dest_name ++ ")")
          end
      end
  end.

(** [async def t(ctx, dest_lang: str = "en")].  [dest_lang] is [None] when
    the command is invoked without an argument. *)
Definition t (reference : option Z) (dest_lang : option text) : io unit :=
  let dest_lang : text :=
    match dest_lang with
    | Some given => given
    | None => "en"
    end in
  try_except (t_body reference dest_lang)
    (fun e =>
       (* Handles any other errors *)
       if is_Exception e then
         Some (perform (Print ("Translation Error: " ++ exc_str e)) ;;;
               perform (Reply ("Error: Unknown." ++ nl ++ USAGE_ERROR)))
       else None).

End Translate.

(** ** The language listing [l] *)

Definition per_page : nat := 20.

(** [f"{s:<width}"] *)
Definition ljust (width : nat) (s : text) : text :=
  s ++ repeat " "%char (width - List.length s).

Definition render_row (item : text * text) : text :=
  "| " ++ ljust 21 (title (fst item)) ++ " | "
       ++ ljust 12 (upper (snd item)) ++ " |" ++ nl.

(** [ceil(len(languages)/per_page)]; the float division is exact for any
    table that fits in memory. *)
Definition page_count (languages : language_table) : nat :=
  (List.length languages + (per_page - 1)) / per_page.

Definition render_page (languages : language_table) (i : nat) : text :=
  let chunk := slice languages i (i + per_page) in
  "```SUPPORTED LANGUAGES ("
    ++ str_of_int (Z.of_nat (i / per_page + 1)) ++ " of "
    ++ str_of_int (Z.of_nat (page_count languages)) ++ "):" ++ nl
    ++ "=======================================" ++ nl
    ++ "| Language              | Abbreviation |" ++ nl
    ++ "|======================================|" ++ nl
    ++ List.concat (map render_row chunk)
    ++ "```".

Definition build_pages (languages : language_table) : list text :=
  map (render_page languages) (range 0 (List.length languages) per_page).

(** A [reaction_add] event. *)
Record reaction_add := mkReaction {
  reaction_emoji : emoji;
  reaction_message_id : Z;
  reaction_user : Z
}.

(** [sequence[i]] for a Python integer index. *)
Definition index (sequence : list text) (i : Z) : io text :=
  let n := Z.of_nat (List.length sequence) in
  let position := if (i <? 0)%Z then (n + i)%Z else i in
  if ((0 <=? position) && (position <? n))%Z then
    ret (nth (Z.to_nat position) sequence [])
  else raise (mkException IndexError "list index out of range").

Section Listing.

(** [ctx.author] and the id of the message that shows the pages. *)
Variables (author message_id : Z).

Definition check (reaction : reaction_add) : bool :=
  ((reaction_user reaction =? author)%Z
   && (reaction_message_id reaction =? message_id)%Z)
  && match reaction_emoji reaction with
     | Back | Forward => true
     | OtherEmoji _ => false
     end.

(** The [while True] loop on the events delivered so far; events that fail
    [check] are not returned by [bot.wait_for].  The result is
    [current_page] after the last event. *)
Fixpoint navigate (pages : list text) (current_page : Z)
  (events : list reaction_add) : io Z :=
  match events with
  | [] => ret current_page
  | reaction :: later =>
      if check reaction then
        let current_page :=
          match reaction_emoji reaction with
          | Forward => (current_page + 1)%Z
          | Back => (current_page - 1)%Z
          | OtherEmoji _ => current_page
          end in
        (* Edits message to display new languages and remove user reaction *)
        new_page <- index pages
                      (current_page mod Z.of_nat (List.length pages))%Z ;;
        perform (Edit new_page) ;;;
        perform (RemoveReaction (reaction_emoji reaction)
                   (reaction_user reaction)) ;;;
        navigate pages current_page later
      else navigate pages current_page later
  end.

Definition l (LANGUAGES : language_table) (events : list reaction_add)
  : io Z :=
  let pages := build_pages LANGUAGES in
  (* Page switching logic *)
  let current_page := 0%Z in
  first_page <- index pages current_page ;;
  perform (Reply first_page) ;;;
  (* Adding reactions for navigation *)
  if 1 <? List.length pages then
    perform (AddReaction Back) ;;;
    perform (AddReaction Forward) ;;;
    navigate pages current_page events
  else ret current_page.

End Listing.

(** ** The calculate command [c]

    [c] hands the user's text to Python's [eval].  The embedding covers the
    part of Python's expression language made of decimal integer literals,
    names, [+ - * / **], unary signs, parentheses and calls; on anything else
    the result is [Unmodelled]. *)

Inductive binop := Add | Sub | Mult | Div | Pow.
Inductive unaryop := UAdd | USub.

#[warnings="-register-all"] Inductive expr :=
| Num (n : Z)
| Name (id : text)
| BinOp (op : binop) (lhs rhs : expr)
| UnaryOp (op : unaryop) (operand : expr)
| Call (func : expr) (args : list expr).

Inductive token :=
| TNum (n : Z) | TName (id : text)
| TPlus | TMinus | TStar | TSlash | TDoubleStar
| TLParen | TRParen | TComma.

(** *** Tokens *)

Definition keywords : list text :=
  [ "False" : text; "None" : text; "True" : text; "and" : text; "as" : text;
    "assert" : text; "async" : text; "await" : text; "break" : text;
    "class" : text; "continue" : text; "def" : text; "del" : text;
    "elif" : text; "else" : text; "except" : text; "finally" : text;
    "for" : text; "from" : text; "global" : text; "if" : text;
    "import" : text; "in" : text; "is" : text; "lambda" : text;
    "nonlocal" : text; "not" : text; "or" : text; "pass" : text;
    "raise" : text; "return" : text; "try" : text; "while" : text;
    "with" : text; "yield" : text ].

Definition is_keyword (id : text) : bool :=
  existsb (text_eqb id) keywords.

Definition is_name_start (c : ascii) : bool :=
  is_alpha c || (if ascii_dec c "_" then true else false).

Definition is_name_char (c : ascii) : bool :=
  is_name_start c || is_digit c.

(** A Python identifier that is not a keyword. *)
Definition is_identifier (id : text) : bool :=
  match id with
  | [] => false
  | first :: rest =>
      is_name_start first && forallb is_name_char rest && negb (is_keyword id)
  end.

Definition digit_value (c : ascii) : Z := Z.of_nat (nat_of_ascii c - 48).

Definition digits_value (digits : text) : Z :=
  fold_left (fun acc c => (10 * acc + digit_value c)%Z) digits 0%Z.

(** The longest integer that [str] converts and the compiler reads. *)
Definition max_str_digits : nat := 4300.

(** The token being read, its characters in reverse. *)
Inductive pending :=
| NoPending
| PNum (digits : text)
| PName (chars : text)
| PStar.

Definition number_token (digits : text) : option (list token) :=
  match digits with
  | "0"%char :: _ :: _ => None
  | _ =>
      if List.length digits <=? max_str_digits
      then Some [TNum (digits_value digits)]
      else None
  end.

Definition name_token (id : text) : option (list token) :=
  if is_keyword id then None else Some [TName id].

Definition flush (p : pending) : option (list token) :=
  match p with
  | NoPending => Some []
  | PNum digits => number_token (rev digits)
  | PName chars => name_token (rev chars)
  | PStar => Some [TStar]
  end.

Definition then_tokens (first rest : option (list token))
  : option (list token) :=
  match first, rest with
  | Some a, Some b => Some (a ++ b)
  | _, _ => None
  end.

Definition single_token (c : ascii) : option token :=
  if ascii_dec c "+" then Some TPlus
  else if ascii_dec c "-" then Some TMinus
  else if ascii_dec c "/" then Some TSlash
  else if ascii_dec c "(" then Some TLParen
  else if ascii_dec c ")" then Some TRParen
  else if ascii_dec c "," then Some TComma
  else None.

(** [None] when the text leaves the modelled tokens. *)
Fixpoint lex (p : pending) (s : text) : option (list token) :=
  match s with
  | [] => flush p
  | c :: rest =>
      if is_digit c then
        match p with
        | PNum digits => lex (PNum (c :: digits)) rest
        | PName chars => lex (PName (c :: chars)) rest
        | _ => then_tokens (flush p) (lex (PNum [c]) rest)
        end
      else if is_name_start c then
        match p with
        | PName chars => lex (PName (c :: chars)) rest
        | PNum _ => None
        | _ => then_tokens (flush p) (lex (PName [c]) rest)
        end
      else if ascii_dec c "*" then
        match p with
        | PStar => then_tokens (Some [TDoubleStar]) (lex NoPending rest)
        | _ => then_tokens (flush p) (lex PStar rest)
        end
      else if ascii_dec c " " then
        then_tokens (flush p) (lex NoPending rest)
      else
        match single_token c with
        | Some tok =>
            then_tokens (flush p)
              (then_tokens (Some [tok]) (lex NoPending rest))
        | None => None
        end
  end.

(** *** Grammar

    [sum: term (('+'|'-') term)*], [term: factor (('*'|'/') factor)*],
    [factor: ('+'|'-') factor | power], [power: primary ['**' factor]],
    [primary: atom ('(' [sum (',' sum)*] ')')*]. *)
Fixpoint parse_sum (fuel : nat) (ts : list token)
  : option (expr * list token) :=
  match fuel with
  | O => None
  | S fuel =>
      match parse_term fuel ts with
      | Some (e, rest) => parse_sum_rest fuel e rest
      | None => None
      end
  end
with parse_sum_rest (fuel : nat) (lhs : expr) (ts : list token)
  : option (expr * list token) :=
  match fuel with
  | O => None
  | S fuel =>
      match ts with
      | TPlus :: rest =>
          match parse_term fuel rest with
          | Some (rhs, rest') => parse_sum_rest fuel (BinOp Add lhs rhs) rest'
          | None => None
          end
      | TMinus :: rest =>
          match parse_term fuel rest with
          | Some (rhs, rest') => parse_sum_rest fuel (BinOp Sub lhs rhs) rest'
          | None => None
          end
      | _ => Some (lhs, ts)
      end
  end
with parse_term (fuel : nat) (ts : list token)
  : option (expr * list token) :=
  match fuel with
  | O => None
  | S fuel =>
      match parse_factor fuel ts with
      | Some (e, rest) => parse_term_rest fuel e rest
      | None => None
      end
  end
with parse_term_rest (fuel : nat) (lhs : expr) (ts : list token)
  : option (expr * list token) :=
  match fuel with
  | O => None
  | S fuel =>
      match ts with
      | TStar :: rest =>
          match parse_factor fuel rest with
          | Some (rhs, rest') => parse_term_rest fuel (BinOp Mult lhs rhs) rest'
          | None => None
          end
      | TSlash :: rest =>
          match parse_factor fuel rest with
          | Some (rhs, rest') => parse_term_rest fuel (BinOp Div lhs rhs) rest'
          | None => None
          end
      | _ => Some (lhs, ts)
      end
  end
with parse_factor (fuel : nat) (ts : list token)
  : option (expr * list token) :=
  match fuel with
  | O => None
  | S fuel =>
      match ts with
      | TPlus :: rest =>
          match parse_factor fuel rest with
          | Some (e, rest') => Some (UnaryOp UAdd e, rest')
          | None => None
          end
      | TMinus :: rest =>
          match parse_factor fuel rest with
          | Some (e, rest') => Some (UnaryOp USub e, rest')
          | None => None
          end
      | _ => parse_power fuel ts
      end
  end
with parse_power (fuel : nat) (ts : list token)
  : option (expr * list token) :=
  match fuel with
  | O => None
  | S fuel =>
      let primary :=
        match ts with
        | TNum n :: rest => parse_trailers fuel (Num n) rest
        | TName id :: rest => parse_trailers fuel (Name id) rest
        | TLParen :: rest =>
            match parse_sum fuel rest with
            | Some (e, TRParen :: rest') => parse_trailers fuel e rest'
            | _ => None
            end
        | _ => None
        end in
      match primary with
      | Some (base, TDoubleStar :: rest) =>
          match parse_factor fuel rest with
          | Some (exponent, rest') => Some (BinOp Pow base exponent, rest')
          | None => None
          end
      | other => other
      end
  end
with parse_trailers (fuel : nat) (e : expr) (ts : list token)
  : option (expr * list token) :=
  match fuel with
  | O => None
  | S fuel =>
      match ts with
      | TLParen :: TRParen :: rest => parse_trailers fuel (Call e []) rest
      | TLParen :: rest =>
          match parse_args fuel rest with
          | Some (args, rest') => parse_trailers fuel (Call e args) rest'
          | None => None
          end
      | _ => Some (e, ts)
      end
  end
with parse_args (fuel : nat) (ts : list token)
  : option (list expr * list token) :=
  match fuel with
  | O => None
  | S fuel =>
      match parse_sum fuel ts with
      | Some (arg, TRParen :: rest) => Some ([arg], rest)
      | Some (arg, TComma :: rest) =>
          match parse_args fuel rest with
          | Some (args, rest') => Some (arg :: args, rest')
          | None => None
          end
      | _ => None
      end
  end.

(** The whole token list as one expression. *)
Definition parse (ts : list token) : option expr :=
  match parse_sum (10 * (List.length ts + 1)) ts with
  | Some (e, []) => Some e
  | _ => None
  end.

(** *** Values and names *)

(** An [int], or any other object (of which only its kind is recorded). *)
Inductive value :=
| VInt (n : Z)
| VOther (kind : text).

Definition namespace := list (text * value).

Fixpoint lookup (names : namespace) (id : text) : option value :=
  match names with
  | [] => None
  | (name, v) :: rest => if text_eqb id name then Some v else lookup rest id
  end.

(** The names [from math import ...] binds: the functions and the constant
    the calculator is meant to offer. *)
Definition math_names : list text :=
  [ "floor" : text; "ceil" : text; "sqrt" : text; "pi" : text; "sin" : text;
    "cos" : text; "tan" : text; "asin" : text; "acos" : text; "atan" : text;
    "deg" : text; "rad" : text ].

(** The local variables of [c] that are bound when [eval] runs. *)
Definition c_locals : namespace :=
  [ ("ctx" : text, VOther "Context"); ("equation" : text, VOther "tuple");
    ("eq" : text, VOther "str") ].

(** The names [main.py] binds at module level, in the order it binds them. *)
Definition module_globals (ID : Z) : namespace :=
  [ ("os" : text, VOther "module"); ("re" : text, VOther "module");
    ("Any" : text, VOther "typing"); ("Optional" : text, VOther "typing");
    ("Union" : text, VOther "typing");
    ("load_dotenv" : text, VOther "function");
    ("discord" : text, VOther "module");
    ("commands" : text, VOther "module");
    ("GoogleTranslator" : text, VOther "type");
    ("single_detection" : text, VOther "function");
    ("floor" : text, VOther "builtin_function_or_method");
    ("ceil" : text, VOther "builtin_function_or_method");
    ("sqrt" : text, VOther "builtin_function_or_method");
    ("pi" : text, VOther "float");
    ("sin" : text, VOther "builtin_function_or_method");
    ("cos" : text, VOther "builtin_function_or_method");
    ("tan" : text, VOther "builtin_function_or_method");
    ("asin" : text, VOther "builtin_function_or_method");
    ("acos" : text, VOther "builtin_function_or_method");
    ("atan" : text, VOther "builtin_function_or_method");
    ("deg" : text, VOther "builtin_function_or_method");
    ("rad" : text, VOther "builtin_function_or_method");
    ("fetch_key" : text, VOther "function");
    ("key_from_value" : text, VOther "function");
    ("TOKEN" : text, VOther "str");
    ("ID" : text, VInt ID);
    ("TRANSLATE_API_KEY" : text, VOther "str");
    ("LANGUAGES" : text, VOther "dict");
    ("MAX_MESSAGE_LENGTH" : text, VInt (Z.of_nat MAX_MESSAGE_LENGTH));
    ("bot" : text, VOther "Bot");
    ("return_message" : text, VOther "function");
    ("h" : text, VOther "Command");
    ("get_lang_code" : text, VOther "function");
    ("t" : text, VOther "Command"); ("l" : text, VOther "Command");
    ("c" : text, VOther "Command"); ("e" : text, VOther "Command") ].

(** *** Evaluation *)

Definition name_error (id : text) : exception :=
  mkException NameError ("name '" ++ id ++ "' is not defined").

Definition apply_binop (op : binop) (a b : value) : outcome value :=
  match a, b with
  | VInt x, VInt y =>
      match op with
      | Add => Returned (VInt (x + y))
      | Sub => Returned (VInt (x - y))
      | Mult => Returned (VInt (x * y))
      | Pow => if (0 <=? y)%Z then Returned (VInt (x ^ y)) else Unmodelled
      | Div =>
          if (y =? 0)%Z
          then Raised (mkException ZeroDivisionError "division by zero")
          else Unmodelled
      end
  | _, _ => Unmodelled
  end.

Definition apply_unaryop (op : unaryop) (a : value) : outcome value :=
  match a with
  | VInt x =>
      match op with
      | UAdd => Returned (VInt x)
      | USub => Returned (VInt (- x))
      end
  | VOther _ => Unmodelled
  end.

(** Operands are evaluated left to right; a call evaluates the callee, then
    the arguments.  What a call returns is not modelled. *)
Fixpoint eval_expr (names : namespace) (e : expr) : outcome value :=
  match e with
  | Num n => Returned (VInt n)
  | Name id =>
      match lookup names id with
      | Some v => Returned v
      | None => Raised (name_error id)
      end
  | BinOp op lhs rhs =>
      match eval_expr names lhs with
      | Returned a =>
          match eval_expr names rhs with
          | Returned b => apply_binop op a b
          | other => other
          end
      | other => other
      end
  | UnaryOp op operand =>
      match eval_expr names operand with
      | Returned a => apply_unaryop op a
      | other => other
      end
  | Call func args =>
      match eval_expr names func with
      | Returned _ =>
          (fix eval_args (args : list expr) : outcome value :=
             match args with
             | [] => Unmodelled
             | arg :: rest =>
                 match eval_expr names arg with
                 | Returned _ => eval_args rest
                 | other => other
                 end
             end) args
      | other => other
      end
  end.

(** [eval(source)] with the names [names] in scope. *)
Definition py_eval (names : namespace) (source : text) : outcome value :=
  match lex NoPending source with
  | Some ts =>
      match parse ts with
      | Some e => eval_expr names e
      | None => Unmodelled
      end
  | None => Unmodelled
  end.

(** [round(v, 5)] *)
Definition py_round (v : value) : outcome value :=
  match v with
  | VInt n => Returned (VInt n)
  | VOther _ => Unmodelled
  end.

(** [f"{v}"] *)
Definition format_value (v : value) : outcome text :=
  match v with
  | VInt n =>
      if List.length (str_of_int (Z.abs n)) <=? max_str_digits
      then Returned (str_of_int n)
      else Unmodelled
  | VOther _ => Unmodelled
  end.

(** The attributes of an exception instance. *)
Definition exception_attributes : list text :=
  [ "args" : text; "with_traceback" : text; "add_note" : text; "name" : text;
    "__traceback__" : text; "__cause__" : text; "__context__" : text;
    "__suppress_context__" : text; "__notes__" : text ].

Definition class_name (k : exception_class) : text :=
  match k with
  | ValueError => "ValueError"
  | NameError => "NameError"
  | AttributeError => "AttributeError"
  | TypeError => "TypeError"
  | ZeroDivisionError => "ZeroDivisionError"
  | IndexError => "IndexError"
  | OtherException => "Exception"
  | NonException => "BaseException"
  end.

(** [e.attribute] for an exception instance [e]. *)
Definition getattr_exception (e : exception) (attribute : text)
  : outcome value :=
  if existsb (text_eqb attribute) exception_attributes
     || (text_eqb (firstn 2 attribute) "__")
  then Unmodelled
  else Raised (mkException AttributeError
                 ("'" ++ class_name (exc_class e)
                      ++ "' object has no attribute '" ++ attribute ++ "'")).

Definition lift {A} (o : outcome A) : io A := ([], o).

Section Calculate.

(** The bot's own user id, the module-level [ID]. *)
Variable ID : Z.
(** The names the interpreter adds to those of the source: the module's
    double-underscore attributes and the builtins. *)
Variable interpreter_names : namespace.

(** [eval] looks a name up in the caller's locals, then in the module's
    globals, then in the builtins. *)
Definition scope : namespace :=
  c_locals ++ module_globals ID ++ interpreter_names.

Definition c_body (equation : list text) : io unit :=
  (* Get equation *)
  let eq := replace_char "^" "**" (join " " equation) in
  match eq with
  | [] =>
      (* Handles no equation found *)
      perform (Reply ("Error: No Equation Found." ++ nl
                        ++ "Usage: `-c <equation>`"))
  | _ =>
      (* Calculate and return total rounded to 5 decimals *)
      v <- lift (py_eval scope eq) ;;
      rounded <- lift (py_round v) ;;
      shown <- lift (format_value rounded) ;;
      perform (Reply ("Total: **" ++ shown ++ "**"))
  end.

Definition c (equation : list text) : io unit :=
  try_except (c_body equation)
    (fun e =>
       match exc_class e with
       | ValueError =>
           (* Handles domain error *)
           Some (perform (Reply "Undefined"))
       | NameError =>
           (* Handles unknown function error: e.split()[1][1:-1] *)
           Some (split <- lift (getattr_exception e "split") ;;
                 unmodelled)
       | _ =>
           (* Handles unknown error *)
           if is_Exception e then
             Some (perform (Print (exc_str e)) ;;;
                   perform (Reply ("Unknown Error:" ++ nl
                                     ++ "Usage: `-c <equation>`")))
           else None
       end).

End Calculate.

(** ** The echo command [e] *)

Definition e (string : list text) : io unit :=
  try_except
    (let string := join " " string in
     match string with
     | [] =>
         (* Handles no string found *)
         perform (Reply ("Error: Invalid String" ++ nl
                           ++ "Usage: `-e <string>`"))
     | _ =>
         (* Echoes string *)
         perform (Reply string)
     end)
    (fun e =>
       if is_Exception e then
         Some (perform (Print (exc_str e)) ;;;
               perform (Reply ("Unknown Error" ++ nl
                                 ++ "Usage: `-e <string>`")))
       else None).

(** ** Keys: [fetch_key] *)

(** [os.getenv], after [load_dotenv()]. *)
Definition environment := text -> option text.

(** A key as [fetch_key] returns it: [Union[str, int]]. *)
Inductive key :=
| KStr (s : text)
| KInt (n : Z).

(** [SystemExit(code)]; its text is [str(code)]. *)
Definition system_exit (code : Z) : exception :=
  mkException NonException (str_of_int code).

Definition hex_digit (n : nat) : ascii :=
  if n <? 10 then ascii_of_nat (48 + n) else ascii_of_nat (87 + n).

(** One character inside [repr(s)] delimited by [quote]. *)
Definition repr_char (quote c : ascii) : text :=
  if ascii_dec c quote then ["\"%char; c]
  else if ascii_dec c "\" then ["\"%char; "\"%char]
  else if ascii_dec c (ascii_of_nat 9) then "\t"
  else if ascii_dec c (ascii_of_nat 10) then "\n"
  else if ascii_dec c (ascii_of_nat 13) then "\r"
  else if (nat_of_ascii c <? 32) || (nat_of_ascii c =? 127) then
    "\x" ++ [hex_digit (nat_of_ascii c / 16); hex_digit (nat_of_ascii c mod 16)]
  else [c].

(** [repr(s)] for a [str] of ASCII characters: double quotes are used when
    [s] holds a single quote and no double quote. *)
Definition repr (s : text) : text :=
  let single := "'"%char in
  let double := ascii_of_nat 34 in
  let quote :=
    if existsb (Ascii.eqb single) s && negb (existsb (Ascii.eqb double) s)
    then double else single in
  [quote] ++ flat_map (repr_char quote) s ++ [quote].

(** The white space [int] skips around a number: TAB, LF, VT, FF, CR and the
    space. *)
Definition is_c_space (c : ascii) : bool :=
  code_in 9 13 c || code_in 32 32 c.

Fixpoint skip_c_space (s : text) : text :=
  match s with
  | [] => []
  | c :: rest => if is_c_space c then skip_c_space rest else s
  end.

(** Digits with single underscores between them; the result is the digits.
    [after_digit] tells whether the character before was a digit. *)
Fixpoint grouped_digits (after_digit : bool) (s : text) : option text :=
  match s with
  | [] => if after_digit then Some [] else None
  | c :: rest =>
      if is_digit c then
        match grouped_digits true rest with
        | Some digits => Some (c :: digits)
        | None => None
        end
      else if ascii_dec c "_" then
        if after_digit then grouped_digits false rest else None
      else None
  end.

Definition is_ascii (c : ascii) : bool := nat_of_ascii c <? 128.

(** [int(s)] for a [str]. *)
Definition py_int (s : text) : outcome Z :=
  if negb (forallb is_ascii s) then Unmodelled
  else
    let invalid :=
      Raised (mkException ValueError
                ("invalid literal for int() with base 10: " ++ repr s)) in
    let trimmed := rev (skip_c_space (rev (skip_c_space s))) in
    let (negative, body) :=
      match trimmed with
      | "-"%char :: body => (true, body)
      | "+"%char :: body => (false, body)
      | _ => (false, trimmed)
      end in
    match grouped_digits false body with
    | Some digits =>
        if List.length digits <=? max_str_digits then
          Returned (if negative then (- digits_value digits)%Z
                    else digits_value digits)
        else Unmodelled
    | None => invalid
    end.

Section Keys.

Variable getenv : environment.

(** The defaults of the optional parameters are [err_msg = "Error in
    fetching keys"], [err_code = -1] and [to_int = False]. *)
Definition fetch_key (key_name : text) (err_msg : option text)
  (err_code : option Z) (to_int : option bool) : io key :=
  let err_msg : text :=
    match err_msg with Some m => m | None => "Error in fetching keys" end in
  let err_code : Z := match err_code with Some c => c | None => (-1)%Z end in
  let to_int : bool := match to_int with Some b => b | None => false end in
  (* Attempt to access the key *)
  try_except
    (match getenv key_name with
     | None =>
         (* Handle nonexistent key *)
         perform (Print (err_msg ++ nl ++ "Error: Key Does Not Exist")) ;;;
         raise (system_exit err_code)
     | Some key =>
         (* Converts key to int if necessary and returns *)
         if to_int then
           try_except
             (n <- lift (py_int key) ;; ret (KInt n))
             (fun e =>
                match exc_class e with
                | ValueError =>
                    Some (perform (Print (err_msg ++ nl
                                            ++ "Error: Concatenation Failed"
                                            ++ nl ++ exc_str e)) ;;;
                          raise (system_exit err_code))
                | _ => None
                end)
         else ret (KStr key)
     end)
    (fun e =>
       (* Handle unknown errors *)
       if is_Exception e then
         Some (perform (Print (err_msg ++ nl ++ "Error: Unknown" ++ nl
                                 ++ exc_str e)) ;;;
               raise (system_exit err_code))
       else None).

(** The three keys the module fetches when it is loaded, in order. *)
Definition fetch_keys : io (key * key * key) :=
  TOKEN <- fetch_key "BOT_TOKEN" (Some ("BOT TOKEN ERROR" : text))
             (Some 1%Z) None ;;
  ID <- fetch_key "BOT_ID" (Some ("BOT ID ERROR" : text))
          (Some 2%Z) (Some true) ;;
  TRANSLATE_API_KEY <-
    fetch_key "LANGUAGE_DETECTION_API_KEY" (Some ("API KEY ERROR" : text))
      (Some 3%Z) None ;;
  ret (TOKEN, ID, TRANSLATE_API_KEY).

End Keys.

(** * Vocabulary of the statements *)

(** No display name and no code of the table is [token]. *)
Definition unlisted (LANGUAGES : language_table) (token : text) : Prop :=
  forall item, In item LANGUAGES -> fst item <> token /\ snd item <> token.

(** [displayNameFor(resolveCode(name))] *)
Definition round_trip (LANGUAGES : language_table) (name : text) : option text :=
  match get_lang_code LANGUAGES name with
  | Some code => key_from_value LANGUAGES code
  | None => None
  end.

(** A table in the shape of the translation library's. *)
Definition sample_languages : language_table :=
  [ ("chinese (simplified)" : text, "zh-CN" : text);
    ("chinese (traditional)" : text, "zh-TW" : text);
    ("english" : text, "en" : text);
    ("french" : text, "fr" : text) ].

(** The text [t] extracts from the fetched message. *)
Definition extracted_content (LANGUAGES : language_table) (ID : Z)
  (msg : message) : text :=
  let msg_content := replace_char "*" [] (strip (content msg)) in
  if (author_id msg =? ID)%Z then strip_annotation LANGUAGES msg_content
  else msg_content.

(** The detected code after the special case for Chinese. *)
Definition normalized (src_lang : text) : text :=
  if text_eqb src_lang "zh" then "zh-CN" else src_lang.

(** The effect is a call to the translation service. *)
Definition calls_translate (f : effect) : bool :=
  match f with
  | Translate _ _ _ => true
  | _ => false
  end.

(** [s.split()]: the maximal runs of characters that are not white space.
    [current] is the run being read, in reverse. *)
Fixpoint words_from (current : text) (s : text) : list text :=
  match s with
  | [] =>
      match current with
      | [] => []
      | _ => [rev current]
      end
  | c :: rest =>
      if is_space c then
        match current with
        | [] => words_from [] rest
        | _ => rev current :: words_from [] rest
        end
      else words_from (c :: current) rest
  end.

Definition split (s : text) : list text := words_from [] s.

(** The identifier a [NameError] message names, as the specification
    describes it: the first token after the leading word, without the
    quotes around it ([message.split()[1][1:-1]]). *)
Definition named_identifier (message : text) : option text :=
  match split message with
  | _ :: token :: _ => Some (removelast (tl token))
  | _ => None
  end.

(** A world in which the replied-to message says [said], written by
    [writer], and the detection service answers [detected]. *)
Definition sample_world (said : text) (writer : Z) (detected : text) : services :=
  mkServices (fun _ => Returned (mkMessage said writer))
             (fun _ => Returned detected)
             (fun _ _ content => Returned (Some content)).

(** The text an effect sends to the channel. *)
Definition payload (f : effect) : text :=
  match f with
  | Reply content | Send content | Edit content => content
  | _ => []
  end.

(** What an accepted activation adds to the cursor. *)
Definition delta (reaction : reaction_add) : Z :=
  match reaction_emoji reaction with
  | Forward => 1
  | Back => -1
  | OtherEmoji _ => 0
  end%Z.

(** The activation is a "next", a "previous". *)
Definition is_next (reaction : reaction_add) : bool :=
  match reaction_emoji reaction with Forward => true | _ => false end.

Definition is_previous (reaction : reaction_add) : bool :=
  match reaction_emoji reaction with Back => true | _ => false end.

(** The number of "next" and of "previous" activations. *)
Definition nexts (activations : list reaction_add) : Z :=
  Z.of_nat (List.length (filter is_next activations)).

Definition previouses (activations : list reaction_add) : Z :=
  Z.of_nat (List.length (filter is_previous activations)).

(** [pages[cursor % len(pages)]] *)
Definition page_at (pages : list text) (cursor : Z) : text :=
  nth (Z.to_nat (cursor mod Z.of_nat (List.length pages))) pages [].

(** The contents the message was edited to, in order. *)
Definition edits (fs : list effect) : list text :=
  flat_map (fun f => match f with Edit content => [content] | _ => [] end) fs.

(** The activations [bot.wait_for] hands to the loop. *)
Definition accepted (author message_id : Z) (events : list reaction_add)
  : list reaction_add :=
  filter (check author message_id) events.

(** The effects of the loop on the accepted activations. *)
Fixpoint shown (pages : list text) (cursor : Z)
  (activations : list reaction_add) : list effect :=
  match activations with
  | [] => []
  | reaction :: later =>
      Edit (page_at pages (cursor + delta reaction))
        :: RemoveReaction (reaction_emoji reaction) (reaction_user reaction)
        :: shown pages (cursor + delta reaction) later
  end.

(** Three pages, and a reaction of the requester (user 9) on the listing
    (message 50). *)
Definition sample_pages : list text :=
  [ "page 1" : text; "page 2" : text; "page 3" : text ].

Definition press (e : emoji) : reaction_add := mkReaction e 50 9.

(** Every character of [s] is white space. *)
Definition all_space (s : text) : bool := forallb is_space s.

(** [c] does not occur in [s]. *)
Definition free_of (c : ascii) (s : text) : bool :=
  forallb (fun d => negb (Ascii.eqb d c)) s.

(** The annotation [t] appends: [(A -> B)]. *)
Definition annotation (A B : text) : text := "(" ++ A ++ " -> " ++ B ++ ")".

(** [s.startswith(p)] *)
Definition starts_with (p s : text) : bool :=
  match strip_prefix p s with
  | Some _ => true
  | None => false
  end.

(** The title-cased display names. *)
Definition titles (LANGUAGES : language_table) : list text :=
  map (fun item => title (fst item)) LANGUAGES.

(** No name contains ">". *)
Definition arrow_free (names : list text) : bool :=
  forallb (free_of ">") names.

(** No name followed by ")" is the start of [B]. *)
Definition closes_only_at_end (names : list text) (B : text) : bool :=
  forallb (fun k => negb (starts_with (k ++ ")") B)) names.

(** No name contains ">", and no name followed by ")" is the start of a
    name: an annotation can be read in one way only. *)
Definition delimited (names : list text) : bool :=
  arrow_free names && forallb (closes_only_at_end names) names.

(** The pattern matches at no position of [s] in the text [s ++ after]. *)
Fixpoint matches_nowhere (alts : list text) (s after : text) : bool :=
  match s with
  | [] => true
  | _ :: rest =>
      match match_annotation alts (s ++ after) with
      | Some _ => false
      | None => matches_nowhere alts rest after
      end
  end.

(** Annotations one after the other, [(A -> B)] after the white space
    [w]. *)
Fixpoint trailer (annotations : list (text * text * text)) : text :=
  match annotations with
  | [] => []
  | (w, A, B) :: more => w ++ annotation A B ++ trailer more
  end.

(** Every annotation is over [names] and set off by white space alone. *)
Definition annotations_over (names : list text)
  (annotations : list (text * text * text)) : Prop :=
  Forall (fun item => all_space (fst (fst item)) = true
                      /\ In (snd (fst item)) names /\ In (snd item) names)
         annotations.

(** The text [t] delivers for a translation. *)
Definition translation_reply (translated src_name dest_name : text) : text :=
  "**" ++ translated ++ "** (" ++ title src_name ++ " -> " ++ title dest_name
       ++ ")".

(** The page numbered [number] of [total] that lists [rows]. *)
Definition page_text (number total : nat) (rows : language_table) : text :=
  "```SUPPORTED LANGUAGES ("
    ++ str_of_int (Z.of_nat number) ++ " of "
    ++ str_of_int (Z.of_nat total) ++ "):" ++ nl
    ++ "=======================================" ++ nl
    ++ "| Language              | Abbreviation |" ++ nl
    ++ "|======================================|" ++ nl
    ++ List.concat (map render_row rows)
    ++ "```".

(** The rows of page [k], counted from 0. *)
Definition page_rows (languages : language_table) (k : nat) : language_table :=
  slice languages (k * per_page) (k * per_page + per_page).

(** What the navigation loop may do: edit the message, and take back a
    "previous" or "next" reaction of [author]. *)
Definition navigation_effect (author : Z) (f : effect) : Prop :=
  match f with
  | Edit _ => True
  | RemoveReaction reaction user =>
      user = author /\ (reaction = Back \/ reaction = Forward)
  | _ => False
  end.

(** A table of 45 languages. *)
Definition forty_five_languages : language_table :=
  map (fun k => (str_of_int (Z.of_nat k), "xx" : text)) (seq 0 45).

(** A decimal integer literal within the modelled tokens: digits, no leading
    zero, at most 4300 of them. *)
Definition is_int_literal (s : text) : bool :=
  match s with
  | [] => false
  | "0"%char :: _ :: _ => false
  | _ => forallb is_digit s && (List.length s <=? max_str_digits)
  end.

(** The reply of [c] to an expression it cannot evaluate. *)
Definition unknown_error : text :=
  "Unknown Error:" ++ nl ++ "Usage: `-c <equation>`".

(** The reply of [c] to an empty expression. *)
Definition no_equation : text :=
  "Error: No Equation Found." ++ nl ++ "Usage: `-c <equation>`".


(** A word as the command parser hands it over: not empty, no white
    space. *)
Definition is_word (w : text) : bool :=
  negb (match w with [] => true | _ => false end)
  && forallb (fun ch => negb (is_space ch)) w.

(** The reply of [e] to an empty string. *)
Definition invalid_string : text :=
  "Error: Invalid String" ++ nl ++ "Usage: `-e <string>`".

(** * Properties *)

(** ** Sample runs *)

Example lower_example : lower "Zh-TW" = "zh-tw".
Proof. reflexivity. Qed.

Example title_example : title "chinese (simplified)" = "Chinese (Simplified)".
Proof. reflexivity. Qed.

Example title_words : title "they're 3d x_y" = "They'Re 3D X_Y".
Proof. reflexivity. Qed.

Example strip_example : strip "  a b  " = "a b".
Proof. reflexivity. Qed.

Example str_of_int_example :
  str_of_int (-2000) = "-2000" /\ str_of_int 0 = "0".
Proof. split; reflexivity. Qed.

Example range_example :
  range 2000 4500 2000 = [2000; 4000]
  /\ range 2000 4000 2000 = [2000]
  /\ range 2000 1 2000 = [].
Proof. repeat split; vm_compute; reflexivity. Qed.

Example strip_annotation_example :
  strip_annotation sample_languages
    "ni hao (English -> Chinese (Simplified))"
  = "ni hao".
Proof. reflexivity. Qed.

Example strip_annotation_example2 :
  strip_annotation sample_languages
    "x (Eng(English -> French)lish -> French) (English -> French)"
  = "x (English -> French)".
Proof. reflexivity. Qed.

Example strip_annotation_adjacent :
  strip_annotation sample_languages "(English -> French)(French -> English)"
  = [].
Proof. reflexivity. Qed.

Example strip_annotation_no_language :
  strip_annotation [] "a ( -> ) b" = "ab".
Proof. reflexivity. Qed.

Example return_message_example :
  effects (return_message "hello") = [Reply "hello"].
Proof. reflexivity. Qed.

Example build_pages_example :
  build_pages [("chinese (simplified)" : text, "zh-CN" : text)]
  = [ "```SUPPORTED LANGUAGES (1 of 1):" ++ nl
      ++ "=======================================" ++ nl
      ++ "| Language              | Abbreviation |" ++ nl
      ++ "|======================================|" ++ nl
      ++ "| Chinese (Simplified)  | ZH-CN        |" ++ nl
      ++ "```" ].
Proof. reflexivity. Qed.

Example lex_example :
  lex NoPending "2**10 - foo(1, x_1)" =
  Some [TNum 2; TDoubleStar; TNum 10; TMinus; TName "foo"; TLParen; TNum 1;
        TComma; TName "x_1"; TRParen].
Proof. reflexivity. Qed.

Example parse_example :
  option_map parse (lex NoPending "-2**2*3 + f(1)(2, 3)") =
  Some (Some (BinOp Add
          (BinOp Mult (UnaryOp USub (BinOp Pow (Num 2) (Num 2))) (Num 3))
          (Call (Call (Name "f") [Num 1]) [Num 2; Num 3]))).
Proof. vm_compute. reflexivity. Qed.

Example c_power :
  c 7 [] ["2^10" : text] = ([Reply "Total: **1024**"], Returned tt).
Proof. vm_compute. reflexivity. Qed.

Example c_split :
  c 7 [] ["2" : text; "+" : text; "3*4" : text]
  = ([Reply "Total: **14**"], Returned tt).
Proof. vm_compute. reflexivity. Qed.

Example c_empty :
  c 7 [] []
  = ([Reply ("Error: No Equation Found." ++ nl ++ "Usage: `-c <equation>`")],
     Returned tt).
Proof. reflexivity. Qed.

Example c_zero :
  c 7 [] ["1/0" : text]
  = ([ Print "division by zero";
       Reply ("Unknown Error:" ++ nl ++ "Usage: `-c <equation>`") ],
     Returned tt).
Proof. vm_compute. reflexivity. Qed.

Example t_translates :
  t sample_languages 7 (sample_world "  *bonjour*  " 3 "fr") (Some 11%Z)
    (Some ("English" : text))
  = ([ FetchMessage 11; Detect "bonjour"; Translate "fr" "en" "bonjour";
       Reply "**bonjour** (French -> English)" ],
     Returned tt).
Proof. reflexivity. Qed.

Example t_retranslates :
  effects (t sample_languages 7
             (sample_world "**hello** (French -> English)" 7 "zh")
             (Some 11%Z) (Some ("zh-tw" : text)))
  = [ FetchMessage 11; Detect "hello"; Translate "zh-CN" "zh-TW" "hello";
      Reply "**hello** (Chinese (Simplified) -> Chinese (Traditional))" ].
Proof. reflexivity. Qed.

Example t_not_a_reply :
  t sample_languages 7 (sample_world "bonjour" 3 "fr") None None
  = ([ Reply ("Error: No Message Found." ++ nl
                ++ "Usage: Reply to a message with `-t <language>`.") ],
     Returned tt).
Proof. reflexivity. Qed.

Example t_service_fault :
  t sample_languages 7
    (mkServices (fun _ => Raised (mkException OtherException "404 Not Found"))
                (fun _ => Unmodelled) (fun _ _ _ => Unmodelled))
    (Some 11%Z) None
  = ([ FetchMessage 11; Print "Translation Error: 404 Not Found";
       Reply ("Error: Unknown." ++ nl ++ USAGE_ERROR) ],
     Returned tt).
Proof. reflexivity. Qed.

Example repr_examples :
  repr "abc" = "'abc'"
  /\ repr "a'b" = [ascii_of_nat 34] ++ "a'b" ++ [ascii_of_nat 34]
  /\ repr ("a\b" ++ nl ++ [ascii_of_nat 31])
     = "'a\\b\n\x1f'".
Proof. repeat split. Qed.

Example py_int_examples :
  py_int " 12 " = Returned 12%Z
  /\ py_int "-0_0" = Returned 0%Z
  /\ py_int "1_2_3" = Returned 123%Z
  /\ py_int "007" = Returned 7%Z
  /\ py_int "1__0"
     = Raised (mkException ValueError
                 "invalid literal for int() with base 10: '1__0'")
  /\ py_int "+ 1"
     = Raised (mkException ValueError
                 "invalid literal for int() with base 10: '+ 1'")
  /\ py_int []
     = Raised (mkException ValueError
                 "invalid literal for int() with base 10: ''").
Proof. repeat split. Qed.

Example e_words :
  e ["hello" : text; "world" : text] = ([Reply "hello world"], Returned tt).
Proof. reflexivity. Qed.

(** ** Text lemmas *)

Lemma text_eqb_eq (a b : text) : text_eqb a b = true <-> a = b.
Proof.
  unfold text_eqb. destruct (text_eq_dec a b); split; congruence.
Qed.

Lemma text_eqb_neq (a b : text) : text_eqb a b = false <-> a <> b.
Proof.
  unfold text_eqb. destruct (text_eq_dec a b); split; congruence.
Qed.

Lemma text_eqb_refl (a : text) : text_eqb a a = true.
Proof. now apply text_eqb_eq. Qed.

(** ** Language registry *)

Lemma table_lookup_unlisted (LANGUAGES : language_table) (token : text) :
  unlisted LANGUAGES token -> table_lookup LANGUAGES token = None.
Proof.
  induction LANGUAGES as [|item rest IH]; intros Hun; simpl.
  - reflexivity.
  - destruct (Hun item (or_introl eq_refl)) as [Hk Hv].
    unfold in_item.
    assert (text_eqb token (fst item) = false) as -> by (apply text_eqb_neq; congruence).
    assert (text_eqb token (snd item) = false) as -> by (apply text_eqb_neq; congruence).
    simpl. apply IH. intros it Hin. apply Hun. now right.
Qed.

Lemma table_lookup_first (before after : language_table) (name code : text) :
  (forall item, In item before -> fst item <> name /\ snd item <> name) ->
  table_lookup (before ++ (name, code) :: after) name = Some code.
Proof.
  induction before as [|item rest IH]; intros Hbefore; simpl.
  - unfold in_item. simpl. now rewrite text_eqb_refl.
  - destruct (Hbefore item (or_introl eq_refl)) as [Hk Hv].
    unfold in_item.
    assert (text_eqb name (fst item) = false) as -> by (apply text_eqb_neq; congruence).
    assert (text_eqb name (snd item) = false) as -> by (apply text_eqb_neq; congruence).
    simpl. apply IH. intros it Hin. apply Hbefore. now right.
Qed.

Lemma key_from_value_first (before after : language_table) (name code : text) :
  (forall item, In item before -> snd item <> code) ->
  key_from_value (before ++ (name, code) :: after) code = Some name.
Proof.
  induction before as [|item rest IH]; intros Hbefore; simpl.
  - now rewrite text_eqb_refl.
  - assert (text_eqb code (snd item) = false) as ->
      by (apply text_eqb_neq; intros E; apply (Hbefore item (or_introl eq_refl)); congruence).
    apply IH. intros it Hin. apply Hbefore. now right.
Qed.

Lemma keys_before_differ (before after : language_table) (name code : text) :
  NoDup (map fst (before ++ (name, code) :: after)) ->
  forall item, In item before -> fst item <> name.
Proof.
  rewrite map_app. simpl. intros Hnd item Hin E.
  apply NoDup_remove_2 in Hnd. apply Hnd.
  apply in_or_app. left. rewrite <- E. now apply in_map.
Qed.

Lemma table_lookup_some (LANGUAGES : language_table) (token code : text) :
  table_lookup LANGUAGES token = Some code ->
  exists item, In item LANGUAGES /\ snd item = code
               /\ (fst item = token \/ snd item = token).
Proof.
  induction LANGUAGES as [|item rest IH]; simpl; intros H.
  - discriminate.
  - destruct (in_item token item) eqn:Hitem.
    + injection H as <-. exists item. repeat split; [now left|].
      unfold in_item in Hitem. apply orb_true_iff in Hitem as [E | E];
        apply text_eqb_eq in E; auto.
    + destruct (IH H) as [it [Hin Hit]]. exists it. split; [now right | exact Hit].
Qed.

(** The first item that has [token] as its name or as its code answers. *)
Lemma table_lookup_first_match (before after : language_table)
  (token name code : text) :
  unlisted before token -> name = token \/ code = token ->
  table_lookup (before ++ (name, code) :: after) token = Some code.
Proof.
  intros Hbefore Hmatch.
  induction before as [|item rest IH]; simpl.
  - unfold in_item. simpl.
    destruct Hmatch as [-> | ->]; rewrite text_eqb_refl;
      [reflexivity | now rewrite orb_true_r].
  - destruct (Hbefore item (or_introl eq_refl)) as [Hk Hv].
    unfold in_item.
    assert (text_eqb token (fst item) = false) as ->
      by (apply text_eqb_neq; congruence).
    assert (text_eqb token (snd item) = false) as ->
      by (apply text_eqb_neq; congruence).
    simpl. apply IH. intros it Hin. apply Hbefore. now right.
Qed.

(** What [get_lang_code] gives for a token that is no display name: the
    token itself when it is a code of the table, the special case
    otherwise. *)
Lemma get_lang_code_not_a_name (LANGUAGES : language_table) (dest_lang : text) :
  (forall item, In item LANGUAGES -> fst item <> lower dest_lang) ->
  get_lang_code LANGUAGES dest_lang = Some (lower dest_lang)
  \/ get_lang_code LANGUAGES dest_lang = special_case (lower dest_lang).
Proof.
  intros Hnames. unfold get_lang_code.
  destruct (table_lookup LANGUAGES (lower dest_lang)) as [code|] eqn:E;
    [|now right].
  left. destruct (table_lookup_some _ _ _ E) as [item [Hin [Hcode [Hk | Hv]]]].
  - exfalso. exact (Hnames item Hin Hk).
  - congruence.
Qed.

(** C8, as stated, fails on a table that lists the tokens themselves: the
    table is tried first and its answer stands.  With a provider that files
    both "zh-tw" and "zh-cn" under the code "zh", the two tokens resolve
    alike, and "chinese" and "zh" do not. *)
Lemma get_lang_code_table_overrides :
  let LANGUAGES : language_table :=
    [ ("zh-tw" : text, "zh" : text); ("zh-cn" : text, "zh" : text) ] in
  get_lang_code LANGUAGES "zh-tw" = Some ("zh" : text)
  /\ get_lang_code LANGUAGES "zh-cn" = Some ("zh" : text)
  /\ get_lang_code LANGUAGES "zh-tw" = get_lang_code LANGUAGES "zh-cn"
  /\ get_lang_code LANGUAGES "chinese" = Some ("zh-CN" : text)
  /\ get_lang_code LANGUAGES "zh" = Some ("zh" : text)
  /\ get_lang_code LANGUAGES "chinese" <> get_lang_code LANGUAGES "zh".
Proof. repeat split. discriminate. Qed.

(** C8, amended.  [get_lang_code] lower-cases its argument and tries the
    table first: when an item has the lower-cased argument as its name or as
    its code, the code of the first such item is the answer, also for the
    Chinese tokens.  Only when no item has it do the special cases apply:
    "chinese" and "zh" give "zh-CN", "zh-tw" gives "zh-TW", "zh-cn" gives
    "zh-CN", and anything else gives [None].  The answers for "zh-tw" and
    "zh-cn" differ as long as neither token is a display name of the
    table. *)
Theorem get_lang_code_chinese (LANGUAGES : language_table) :
  (forall dest_lang before name code after,
     LANGUAGES = before ++ (name, code) :: after ->
     unlisted before (lower dest_lang) ->
     name = lower dest_lang \/ code = lower dest_lang ->
     get_lang_code LANGUAGES dest_lang = Some code)
  /\ (forall dest_lang,
      unlisted LANGUAGES (lower dest_lang) ->
      (lower dest_lang = "chinese" \/ lower dest_lang = "zh" ->
       get_lang_code LANGUAGES dest_lang = Some ("zh-CN" : text))
      /\ (lower dest_lang = "zh-tw" ->
          get_lang_code LANGUAGES dest_lang = Some ("zh-TW" : text))
      /\ (lower dest_lang = "zh-cn" ->
          get_lang_code LANGUAGES dest_lang = Some ("zh-CN" : text))
      /\ (~ In (lower dest_lang)
              [ "chinese" : text; "zh" : text; "zh-tw" : text; "zh-cn" : text ] ->
          get_lang_code LANGUAGES dest_lang = None))
  /\ (forall traditional simplified,
      lower traditional = "zh-tw" -> lower simplified = "zh-cn" ->
      (forall item, In item LANGUAGES ->
         fst item <> ("zh-tw" : text) /\ fst item <> ("zh-cn" : text)) ->
      get_lang_code LANGUAGES traditional <> get_lang_code LANGUAGES simplified).
Proof.
  split; [|split].
  - intros dest_lang before name code after -> Hbefore Hmatch.
    unfold get_lang_code.
    now rewrite (table_lookup_first_match before after _ name code).
  - intros dest_lang Hun. unfold get_lang_code.
    rewrite (table_lookup_unlisted _ _ Hun).
    split; [|split; [|split]].
    + intros [-> | ->]; reflexivity.
    + intros ->; reflexivity.
    + intros ->; reflexivity.
    + intros Hother. unfold special_case.
      destruct (text_eqb (lower dest_lang) "chinese") eqn:E1;
        [apply text_eqb_eq in E1; exfalso; apply Hother; simpl; auto|].
      destruct (text_eqb (lower dest_lang) "zh") eqn:E2;
        [apply text_eqb_eq in E2; exfalso; apply Hother; simpl; auto|].
      destruct (text_eqb (lower dest_lang) "zh-tw") eqn:E3;
        [apply text_eqb_eq in E3; exfalso; apply Hother; simpl; auto|].
      destruct (text_eqb (lower dest_lang) "zh-cn") eqn:E4;
        [apply text_eqb_eq in E4; exfalso; apply Hother; simpl; auto|].
      reflexivity.
  - intros traditional simplified Ht Hs Hnames.
    destruct (get_lang_code_not_a_name LANGUAGES traditional) as [Et | Et];
      [rewrite Ht; intros item Hin; now apply Hnames | |];
      destruct (get_lang_code_not_a_name LANGUAGES simplified) as [Es | Es];
      try (rewrite Hs; intros item Hin; now apply Hnames);
      rewrite Et, Es, Ht, Hs; discriminate.
Qed.

Lemma sample_languages_unlisted (token : text) :
  existsb (in_item token) sample_languages = false ->
  unlisted sample_languages token.
Proof.
  intros H item Hin.
  assert (in_item token item = false) as Hitem.
  { destruct (in_item token item) eqn:E; [|reflexivity].
    rewrite <- H. symmetry. apply existsb_exists. now exists item. }
  unfold in_item in Hitem. apply orb_false_iff in Hitem as [Hk Hv].
  apply text_eqb_neq in Hk, Hv. split; congruence.
Qed.

(** On the sample table: "ZH-TW" goes through the special case, "Chinese
    (Traditional)" through the table, and "ZH-TW" and "zh-cn" differ. *)
Lemma get_lang_code_chinese_witness :
  get_lang_code sample_languages "ZH-TW" = Some ("zh-TW" : text)
  /\ get_lang_code sample_languages "Chinese (Traditional)"
     = Some ("zh-TW" : text)
  /\ get_lang_code sample_languages "ZH-TW"
     <> get_lang_code sample_languages "zh-cn".
Proof.
  split; [|split].
  - apply (get_lang_code_chinese sample_languages).
    + apply sample_languages_unlisted. reflexivity.
    + reflexivity.
  - apply (proj1 (get_lang_code_chinese sample_languages)
             "Chinese (Traditional)"
             [ ("chinese (simplified)" : text, "zh-CN" : text) ]
             "chinese (traditional)" "zh-TW"
             [ ("english" : text, "en" : text); ("french" : text, "fr" : text) ]).
    + reflexivity.
    + intros item [<- | []]; split; discriminate.
    + left. reflexivity.
  - apply (get_lang_code_chinese sample_languages).
    + reflexivity.
    + reflexivity.
    + intros item [<- | [<- | [<- | [<- | []]]]]; split; discriminate.
Defined.

(** C9, as stated, fails: two display names share the code "tl", and the
    round trip of the second one gives the first. *)
Lemma round_trip_shared_code :
  let LANGUAGES : language_table :=
    [ ("filipino" : text, "tl" : text); ("tagalog" : text, "tl" : text) ] in
  NoDup (map fst LANGUAGES)
  /\ In ("tagalog" : text, "tl" : text) LANGUAGES
  /\ round_trip LANGUAGES "tagalog" = Some ("filipino" : text)
  /\ round_trip LANGUAGES "tagalog" <> Some ("tagalog" : text).
Proof.
  repeat split.
  - repeat constructor; simpl; intuition discriminate.
  - simpl. auto.
  - discriminate.
Qed.

(** C9, amended.  [key_from_value] returns the first display name that
    carries the code, so that whatever resolves to [code] is displayed as
    that name.  The round trip gives [name] back when [name] is in lower
    case and no earlier item has [code] or [name] as its code. *)
Theorem round_trip_first_name (before after : language_table) (name code : text) :
  let LANGUAGES := before ++ (name, code) :: after in
  NoDup (map fst LANGUAGES) ->
  (forall item, In item before -> snd item <> code) ->
  key_from_value LANGUAGES code = Some name
  /\ (forall input, get_lang_code LANGUAGES input = Some code ->
      round_trip LANGUAGES input = Some name)
  /\ (lower name = name ->
      (forall item, In item before -> snd item <> name) ->
      round_trip LANGUAGES name = Some name).
Proof.
  intros LANGUAGES Hkeys Hcode. split; [|split].
  - now apply key_from_value_first.
  - intros input Hinput. unfold round_trip. rewrite Hinput.
    now apply key_from_value_first.
  - intros Hlower Hname. unfold round_trip, get_lang_code.
    rewrite Hlower. unfold LANGUAGES.
    rewrite table_lookup_first.
    + now apply key_from_value_first.
    + intros item Hin. split.
      * now apply (keys_before_differ before after name code).
      * now apply Hname.
Qed.

Lemma round_trip_first_name_witness :
  round_trip sample_languages "english" = Some ("english" : text).
Proof.
  apply (round_trip_first_name
           [ ("chinese (simplified)" : text, "zh-CN" : text);
             ("chinese (traditional)" : text, "zh-TW" : text) ]
           [ ("french" : text, "fr" : text) ] "english" "en").
  - repeat constructor; simpl; intuition discriminate.
  - simpl. intros item [<- | [<- | []]]; discriminate.
  - reflexivity.
  - simpl. intros item [<- | [<- | []]]; discriminate.
Defined.

(** ** Message delivery *)

Section Slices.

Context {A : Type}.

Lemma firstn_plus (a b : nat) (s : list A) :
  firstn (a + b) s = firstn a s ++ firstn b (skipn a s).
Proof.
  revert s. induction a as [|a IH]; intros s; simpl.
  - reflexivity.
  - destruct s as [|x s]; simpl.
    + now rewrite firstn_nil.
    + now rewrite IH.
Qed.

(** [k] consecutive slices of width [step] from [start] make up the next
    [k * step] elements. *)
Lemma slices_concat (step start k : nat) (s : list A) :
  List.concat
    (map (fun j => slice s (start + j * step) (start + j * step + step))
         (seq 0 k))
  = firstn (k * step) (skipn start s).
Proof.
  induction k as [|k IH].
  - reflexivity.
  - rewrite seq_S, map_app, concat_app, IH. simpl.
    rewrite app_nil_r. unfold slice.
    replace (start + k * step + step - (start + k * step)) with step by lia.
    replace (start + k * step) with (k * step + start) by lia.
    rewrite <- skipn_skipn.
    replace (step + k * step) with (k * step + step) by lia.
    now rewrite firstn_plus.
Qed.

Lemma range_covers (n step : nat) :
  0 < step -> n <= (n + (step - 1)) / step * step.
Proof.
  intros Hstep.
  pose proof (Nat.div_mod_eq (n + (step - 1)) step) as Hdiv.
  pose proof (Nat.mod_upper_bound (n + (step - 1)) step) as Hmod.
  nia.
Qed.

(** The slices [s[0:step]], [s[step:2*step]], ... that [return_message]
    takes put together give [s] back. *)
Lemma slices_cover (step : nat) (s : list A) :
  0 < step ->
  slice s 0 step
    ++ List.concat (map (fun i => slice s i (i + step))
                        (range step (List.length s) step))
  = s.
Proof.
  intros Hstep. unfold range. rewrite map_map.
  rewrite (slices_concat step step).
  unfold slice at 1. rewrite Nat.sub_0_r. simpl skipn.
  rewrite (firstn_all2 (n := _ * step)).
  - apply firstn_skipn.
  - rewrite length_skipn. now apply range_covers.
Qed.

Lemma slice_length_le (s : list A) (i j : nat) :
  List.length (slice s i j) <= j - i.
Proof. unfold slice. apply firstn_le_length. Qed.

End Slices.

Lemma for_each_send (xs : list nat) (chunk : nat -> text) :
  for_each xs (fun i => perform (Send (chunk i)))
  = (map (fun i => Send (chunk i)) xs, Returned tt).
Proof.
  induction xs as [|x xs IH]; simpl.
  - reflexivity.
  - rewrite IH. reflexivity.
Qed.

Lemma return_message_effects (content : text) :
  return_message content
  = (Reply (slice content 0 MAX_MESSAGE_LENGTH)
       :: map Send
            (map (fun i => slice content i (i + MAX_MESSAGE_LENGTH))
                 (range MAX_MESSAGE_LENGTH (List.length content)
                        MAX_MESSAGE_LENGTH)),
     Returned tt).
Proof.
  unfold return_message. rewrite for_each_send, map_map. reflexivity.
Qed.

Lemma payload_send (chunks : list text) : map payload (map Send chunks) = chunks.
Proof.
  induction chunks as [|x xs IH]; simpl; [reflexivity | now rewrite IH].
Qed.

Lemma MAX_MESSAGE_LENGTH_pos : 0 < MAX_MESSAGE_LENGTH.
Proof. unfold MAX_MESSAGE_LENGTH. lia. Qed.

(** C7.  [return_message] replies with the first slice and sends every later
    slice as a follow-up; the slices are consecutive, so that put together in
    the order sent they are the content, and none is longer than 2000.  A
    content of 4500 characters goes out as chunks of 2000, 2000 and 500. *)
Theorem return_message_chunks (content : text) :
  let run := return_message content in
  let sent := map payload (effects run) in
  result run = Returned tt
  /\ (exists first followups, effects run = Reply first :: map Send followups)
  /\ List.concat sent = content
  /\ Forall (fun chunk => List.length chunk <= MAX_MESSAGE_LENGTH) sent
  /\ (List.length content = 4500 ->
      map (@List.length ascii) sent = [2000; 2000; 500]).
Proof.
  intros run sent. unfold sent, run. rewrite return_message_effects.
  unfold effects, result. simpl fst. simpl snd.
  split; [reflexivity|]. split; [eauto|].
  cbn [map payload]. rewrite payload_send.
  split; [|split].
  - cbn [List.concat]. apply slices_cover. exact MAX_MESSAGE_LENGTH_pos.
  - constructor.
    + pose proof (slice_length_le content 0 MAX_MESSAGE_LENGTH). lia.
    + apply Forall_forall. intros chunk Hin.
      apply in_map_iff in Hin as [i [<- _]].
      pose proof (slice_length_le content i (i + MAX_MESSAGE_LENGTH)). lia.
  - intros Hlen. rewrite Hlen.
    replace (range MAX_MESSAGE_LENGTH 4500 MAX_MESSAGE_LENGTH)
      with [2000; 4000] by (vm_compute; reflexivity).
    unfold slice, MAX_MESSAGE_LENGTH. cbn [map List.length].
    rewrite !length_firstn, !length_skipn, Hlen.
    vm_compute. reflexivity.
Qed.

Lemma return_message_chunks_witness :
  map (@List.length ascii)
      (map payload (effects (return_message (repeat "a"%char 4500))))
  = [2000; 2000; 500].
Proof.
  apply (return_message_chunks (repeat "a"%char 4500)).
  apply repeat_length.
Defined.

(** ** The translate command *)

Lemma translate_not_sent (source target sent : text) (chunks : list text) :
  ~ In (Translate source target sent) (map Send chunks).
Proof.
  intros Hin. apply in_map_iff in Hin as [chunk [Heq _]]. discriminate Heq.
Qed.

(** Whatever [t] hands to the translation service, the source is a code of
    the table and the destination is what its [dest_lang] parameter resolves
    to. *)
Lemma t_translate_call (LANGUAGES : language_table) (ID : Z)
  (world : services) (reference : option Z) (dest_lang : option text)
  (source target sent : text) :
  In (Translate source target sent)
     (effects (t LANGUAGES ID world reference dest_lang)) ->
  in_values LANGUAGES source = true
  /\ get_lang_code LANGUAGES
       (match dest_lang with Some given => given | None => "en" : text end)
     = Some target.
Proof.
  unfold t. set (d := match dest_lang with Some given => given | None => _ end).
  unfold t_body.
  destruct reference as [msg_id|]; [|simpl; intuition discriminate].
  destruct (get_lang_code LANGUAGES d) as [code|];
    [|simpl; intuition discriminate].
  unfold call at 1.
  destruct (fetch_message world msg_id) as [msg|e|]; cbn [bind];
    [| unfold try_except; destruct (is_Exception e); simpl;
       intuition discriminate
     | simpl; intuition discriminate].
  set (msg_content := if (author_id msg =? ID)%Z then _ else _).
  destruct msg_content as [|ch more]; [simpl; intuition discriminate|].
  unfold call at 1.
  destruct (single_detection world (ch :: more)) as [src|e|]; cbn [bind];
    [| unfold try_except; destruct (is_Exception e); simpl;
       intuition discriminate
     | simpl; intuition discriminate].
  set (src_lang := if text_eqb src "zh" then _ else _).
  destruct (in_values LANGUAGES src_lang) eqn:Hknown; cbn [negb];
    [|simpl; intuition discriminate].
  unfold call at 1.
  destruct (translate world src_lang code (ch :: more)) as [translated|e|];
    cbn [bind];
    [| unfold try_except; destruct (is_Exception e); simpl;
       intuition congruence
     | simpl; intuition congruence].
  destruct (falsy translated); [simpl; intuition congruence|].
  unfold title_of.
  destruct (key_from_value LANGUAGES src_lang) as [src_name|];
    [|simpl; intuition congruence].
  destruct (key_from_value LANGUAGES code) as [dest_name|];
    [|simpl; intuition congruence].
  unfold ret. cbn [bind]. rewrite return_message_effects.
  unfold try_except, effects. cbn [fst app].
  intros [H | [H | [H | [H | H]]]]; try discriminate H.
  - injection H as <- <- _. auto.
  - now apply translate_not_sent in H.
Qed.

(** C10.  Invoked without an argument, [t] does exactly what it does when
    the user supplies "en"; what it then translates, it translates into the
    code "en" resolves to. *)
Theorem t_default_destination (LANGUAGES : language_table) (ID : Z)
  (world : services) (reference : option Z) :
  let run := t LANGUAGES ID world reference None in
  run = t LANGUAGES ID world reference (Some ("en" : text))
  /\ (forall source target sent,
      In (Translate source target sent) (effects run) ->
      get_lang_code LANGUAGES "en" = Some target).
Proof.
  split; [reflexivity|]. intros source target sent Hin.
  now apply (t_translate_call LANGUAGES ID world reference None
               source target sent).
Qed.

Lemma t_default_destination_witness :
  effects (t sample_languages 7 (sample_world "bonjour" 3 "fr") (Some 11%Z) None)
  = [ FetchMessage 11; Detect "bonjour"; Translate "fr" "en" "bonjour";
      Reply "**bonjour** (French -> English)" ]
  /\ get_lang_code sample_languages "en" = Some ("en" : text).
Proof.
  split; [reflexivity|].
  apply (proj2 (t_default_destination sample_languages 7
                  (sample_world "bonjour" 3 "fr") (Some 11%Z))
           ("fr" : text) ("en" : text) ("bonjour" : text)).
  simpl. auto.
Defined.

(** C3, on the code.  When the destination does not resolve, the reply
    quotes the rebound variable, which is [None] at that point, whatever the
    user typed; nothing is fetched and nothing is translated. *)
Theorem t_invalid_destination (LANGUAGES : language_table) (ID : Z)
  (world : services) (msg_id : Z) (dest_lang : text) :
  get_lang_code LANGUAGES dest_lang = None ->
  t LANGUAGES ID world (Some msg_id) (Some dest_lang)
  = ([Reply ("Error: `None` is not a valid language." ++ nl
               ++ "Usage: Reply to a message with `-t <language>`.")],
     Returned tt).
Proof.
  intros Hnone. unfold t, t_body. rewrite Hnone. reflexivity.
Qed.

Lemma t_invalid_destination_witness :
  t sample_languages 7 (sample_world "bonjour" 3 "fr") (Some 11%Z)
    (Some ("klingon" : text))
  = ([Reply ("Error: `None` is not a valid language." ++ nl
               ++ "Usage: Reply to a message with `-t <language>`.")],
     Returned tt).
Proof.
  apply (t_invalid_destination sample_languages 7
           (sample_world "bonjour" 3 "fr") 11 "klingon").
  reflexivity.
Defined.

(** C5.  When the detected code, with "zh" read as "zh-CN", is not a value of
    the table, [t] replies with the source-language error and stops: the run
    holds no call to the translation service.  In any run at all, a call to
    the translation service has a code of the table as its source. *)
Theorem t_unsupported_source (LANGUAGES : language_table) (ID : Z)
  (world : services) (msg_id : Z) (dest_lang : option text)
  (dest_code : text) (msg : message) (detected : text) :
  let msg_content := extracted_content LANGUAGES ID msg in
  let run := t LANGUAGES ID world (Some msg_id) dest_lang in
  (get_lang_code LANGUAGES
     (match dest_lang with Some given => given | None => "en" : text end)
   = Some dest_code ->
   fetch_message world msg_id = Returned msg ->
   msg_content <> [] ->
   single_detection world msg_content = Returned detected ->
   in_values LANGUAGES (normalized detected) = false ->
   run = ([FetchMessage msg_id; Detect msg_content;
           Reply ("Error: `" ++ normalized detected
                    ++ "` is not a supported source language." ++ nl
                    ++ USAGE_ERROR)],
          Returned tt)
   /\ existsb calls_translate (effects run) = false)
  /\ (forall source target sent,
      In (Translate source target sent) (effects run) ->
      in_values LANGUAGES source = true).
Proof.
  intros msg_content run. split.
  - intros Hdest Hfetch Hcontent Hdetect Hsrc.
    assert (run = ([FetchMessage msg_id; Detect msg_content;
            Reply ("Error: `" ++ normalized detected
                     ++ "` is not a supported source language." ++ nl
                     ++ USAGE_ERROR)], Returned tt)) as Hrun.
    { unfold run, t, t_body. rewrite Hdest. unfold call at 1.
      rewrite Hfetch. cbn [bind].
      fold (extracted_content LANGUAGES ID msg). fold msg_content.
      destruct msg_content as [|ch more] eqn:E; [congruence|].
      unfold call. rewrite Hdetect. cbn [bind].
      fold (normalized detected). rewrite Hsrc. reflexivity. }
    split; [exact Hrun|]. rewrite Hrun. reflexivity.
  - intros source target sent Hin.
    now apply (t_translate_call LANGUAGES ID world (Some msg_id) dest_lang
                 source target sent).
Qed.

Lemma t_unsupported_source_witness :
  let run :=
    t sample_languages 7 (sample_world "**hej**" 3 "sv") (Some 11%Z) None in
  run = ([FetchMessage 11; Detect "hej";
          Reply ("Error: `sv` is not a supported source language." ++ nl
                   ++ USAGE_ERROR)],
         Returned tt)
  /\ existsb calls_translate (effects run) = false.
Proof.
  apply (t_unsupported_source sample_languages 7
           (sample_world "**hej**" 3 "sv") 11 None "en"
           (mkMessage "**hej**" 3) "sv").
  - reflexivity.
  - reflexivity.
  - discriminate.
  - reflexivity.
  - reflexivity.
Defined.

(** ** Page navigation *)

Lemma net_cons (reaction : reaction_add) (later : list reaction_add) :
  (nexts (reaction :: later) - previouses (reaction :: later)
   = delta reaction + (nexts later - previouses later))%Z.
Proof.
  unfold nexts, previouses, delta, is_next, is_previous. simpl.
  destruct (reaction_emoji reaction); simpl List.length; lia.
Qed.

Lemma index_mod (pages : list text) (cursor : Z) :
  1 <= List.length pages ->
  index pages (cursor mod Z.of_nat (List.length pages))
  = ret (page_at pages cursor).
Proof.
  intros Hlen. unfold index, page_at.
  pose proof (Z.mod_pos_bound cursor (Z.of_nat (List.length pages))) as Hb.
  assert (0 <= cursor mod Z.of_nat (List.length pages)
          < Z.of_nat (List.length pages))%Z as [Hlo Hhi] by (apply Hb; lia).
  destruct (Z.ltb_spec (cursor mod Z.of_nat (List.length pages)) 0); [lia|].
  destruct (Z.leb_spec 0 (cursor mod Z.of_nat (List.length pages))); [|lia].
  destruct (Z.ltb_spec (cursor mod Z.of_nat (List.length pages))
                       (Z.of_nat (List.length pages))); [|lia].
  reflexivity.
Qed.

Section Navigation.

Variables (author message_id : Z).
Variable pages : list text.
Hypothesis several_pages : 2 <= List.length pages.

Lemma navigate_run (events : list reaction_add) (cursor : Z) :
  navigate author message_id pages cursor events
  = (shown pages cursor (accepted author message_id events),
     Returned (cursor + (nexts (accepted author message_id events)
                         - previouses (accepted author message_id events)))%Z).
Proof.
  revert cursor. induction events as [|reaction later IH]; intros cursor.
  - simpl. unfold ret. f_equal. f_equal. unfold nexts, previouses. simpl. lia.
  - unfold accepted in *. simpl.
    destruct (check author message_id reaction) eqn:Hcheck.
    + rewrite net_cons.
      assert (1 <= List.length pages) as Hone by lia.
      replace (match reaction_emoji reaction with
               | Back => (cursor - 1)%Z
               | Forward => (cursor + 1)%Z
               | OtherEmoji _ => cursor
               end) with (cursor + delta reaction)%Z
        by (unfold delta; destruct (reaction_emoji reaction); lia).
      rewrite (index_mod pages _ Hone), IH.
      unfold bind, ret, perform. simpl. f_equal. f_equal. lia.
    + apply IH.
Qed.

Lemma edits_shown_length (activations : list reaction_add) (cursor : Z) :
  List.length (edits (shown pages cursor activations))
  = List.length activations.
Proof.
  revert cursor. induction activations as [|r later IH]; intros cursor; simpl.
  - reflexivity.
  - now rewrite IH.
Qed.

Lemma edits_shown_nth (activations : list reaction_add) (cursor : Z) (k : nat) :
  k < List.length activations ->
  nth_error (edits (shown pages cursor activations)) k
  = Some (page_at pages
            (cursor + (nexts (firstn (S k) activations)
                       - previouses (firstn (S k) activations)))%Z).
Proof.
  revert cursor k.
  induction activations as [|r later IH]; intros cursor k Hk; simpl in Hk.
  - lia.
  - rewrite firstn_cons, net_cons. destruct k as [|k].
    + simpl. do 2 f_equal. unfold nexts, previouses. simpl. lia.
    + simpl edits. simpl nth_error. rewrite IH by lia.
      do 2 f_equal. lia.
Qed.

(** C6.  With at least two pages and starting from cursor 0, each accepted
    activation edits the message to
    [pages[(nexts - previouses) mod len(pages)]], the counts being taken over
    the activations accepted up to and including that one.  The cursor itself
    is the plain difference, never reduced.  A "next" from the last page
    shows the first page, and cursor -1 shows the last page. *)
Theorem navigate_displays (events : list reaction_add) :
  let run := navigate author message_id pages 0 events in
  result run
  = Returned (nexts (accepted author message_id events)
              - previouses (accepted author message_id events))%Z
  /\ List.length (edits (effects run))
     = List.length (accepted author message_id events)
  /\ (forall k, k < List.length (accepted author message_id events) ->
      let so_far := firstn (S k) (accepted author message_id events) in
      nth_error (edits (effects run)) k
      = Some (nth (Z.to_nat ((nexts so_far - previouses so_far)
                               mod Z.of_nat (List.length pages)))
                  pages []))
  /\ (forall cursor : Z,
      (cursor mod Z.of_nat (List.length pages)
       = Z.of_nat (List.length pages) - 1)%Z ->
      page_at pages (cursor + 1) = nth 0 pages [])
  /\ page_at pages (-1) = nth (List.length pages - 1) pages [].
Proof.
  intros run. unfold run. rewrite navigate_run.
  unfold result, effects. simpl fst. simpl snd.
  split; [f_equal; lia|]. split; [apply edits_shown_length|].
  split; [|split].
  - intros k Hk. cbv zeta. rewrite edits_shown_nth by exact Hk.
    reflexivity.
  - intros cursor Hlast. unfold page_at.
    replace ((cursor + 1) mod Z.of_nat (List.length pages))%Z with 0%Z;
      [reflexivity|].
    rewrite <- Zplus_mod_idemp_l, Hlast.
    replace (Z.of_nat (List.length pages) - 1 + 1)%Z
      with (Z.of_nat (List.length pages)) by lia.
    now rewrite Z.mod_same by lia.
  - unfold page_at. f_equal.
    replace (-1)%Z with (Z.of_nat (List.length pages) - 1
                         + (-1) * Z.of_nat (List.length pages))%Z by lia.
    rewrite Z.mod_add by lia. rewrite Z.mod_small by lia. lia.
Qed.

End Navigation.

Lemma build_pages_length (LANGUAGES : language_table) :
  List.length (build_pages LANGUAGES) = page_count LANGUAGES.
Proof.
  unfold build_pages, range, page_count.
  now rewrite !length_map, length_seq, Nat.sub_0_r.
Qed.

(** With more than one page, [l] shows the first page, adds the two
    reactions and enters the loop. *)
Lemma l_run (author message_id : Z) (LANGUAGES : language_table)
  (events : list reaction_add) :
  2 <= List.length (build_pages LANGUAGES) ->
  l author message_id LANGUAGES events
  = (Reply (nth 0 (build_pages LANGUAGES) [])
       :: AddReaction Back :: AddReaction Forward
       :: shown (build_pages LANGUAGES) 0 (accepted author message_id events),
     Returned (nexts (accepted author message_id events)
               - previouses (accepted author message_id events))%Z).
Proof.
  intros Hpages. unfold l.
  assert (index (build_pages LANGUAGES) 0
          = ret (nth 0 (build_pages LANGUAGES) [])) as ->.
  { unfold index. cbn [Z.ltb Z.compare Z.leb andb].
    destruct (Z.ltb_spec 0 (Z.of_nat (List.length (build_pages LANGUAGES))));
      [reflexivity | lia]. }
  destruct (Nat.ltb_spec 1 (List.length (build_pages LANGUAGES))); [|lia].
  rewrite (navigate_run author message_id _ Hpages).
  reflexivity.
Qed.

(** Three "next" from the first page reach the last page and wrap to the
    first; a stranger's reaction and an unknown emoji are passed over. *)
Lemma navigate_displays_witness :
  edits (effects (navigate 9 50 sample_pages 0
                    [ press Forward; mkReaction Forward 50 8; press Forward;
                      press (OtherEmoji "x"); press Forward; press Back ]))
  = [ "page 2" : text; "page 3" : text; "page 1" : text; "page 3" : text ]
  /\ nth_error
       (edits (effects (navigate 9 50 sample_pages 0
                          [ press Forward; press Forward; press Forward ]))) 2
     = Some ("page 1" : text).
Proof.
  split; [reflexivity|].
  apply (navigate_displays 9 50 sample_pages).
  - simpl. lia.
  - simpl. lia.
Defined.

(** ** Whitespace trimming *)

Lemma lstrip_all_space (w s : text) :
  all_space w = true -> lstrip (w ++ s) = lstrip s.
Proof.
  induction w as [|c w IH]; simpl; intros H.
  - reflexivity.
  - apply andb_true_iff in H as [Hc Hw]. rewrite Hc. now apply IH.
Qed.

Lemma lstrip_not_all_space (s u : text) :
  all_space s = false -> lstrip (s ++ u) = lstrip s ++ u.
Proof.
  induction s as [|c s IH]; simpl; intros H.
  - discriminate.
  - destruct (is_space c); simpl in H.
    + now apply IH.
    + reflexivity.
Qed.

Lemma lstrip_nil_all_space (s : text) : all_space s = true -> lstrip s = [].
Proof.
  intros H. rewrite <- (app_nil_r s). now rewrite lstrip_all_space.
Qed.

(** What [lstrip] leaves starts with a character of [s] that is not a
    space. *)
Lemma lstrip_head (s : text) (c : ascii) (rest : text) :
  lstrip s = c :: rest -> is_space c = false /\ In c s.
Proof.
  induction s as [|d s IH]; simpl; intros H.
  - discriminate.
  - destruct (is_space d) eqn:Hd.
    + destruct (IH H) as [Hc Hin]. auto.
    + injection H as -> _. auto.
Qed.

Lemma lstrip_incl (s : text) (c : ascii) : In c (lstrip s) -> In c s.
Proof.
  induction s as [|d s IH]; simpl; intros H.
  - exact H.
  - destruct (is_space d).
    + right. now apply IH.
    + exact H.
Qed.

Lemma all_space_rev (s : text) : all_space (rev s) = all_space s.
Proof.
  unfold all_space. induction s as [|c s IH]; simpl.
  - reflexivity.
  - rewrite forallb_app, IH. simpl. rewrite andb_true_r. apply andb_comm.
Qed.

Lemma rstrip_cons (c : ascii) (s : text) :
  rstrip (c :: s)
  = if all_space s then (if is_space c then [] else [c])
    else c :: rstrip s.
Proof.
  unfold rstrip. simpl rev.
  destruct (all_space s) eqn:Hs.
  - rewrite lstrip_all_space by (now rewrite all_space_rev).
    simpl. now destruct (is_space c).
  - rewrite lstrip_not_all_space by (now rewrite all_space_rev).
    rewrite rev_app_distr. reflexivity.
Qed.

Lemma rstrip_all_space (s : text) : all_space s = true -> rstrip s = [].
Proof.
  intros H. unfold rstrip.
  rewrite lstrip_nil_all_space by (now rewrite all_space_rev). reflexivity.
Qed.

Lemma rstrip_incl (s : text) (c : ascii) : In c (rstrip s) -> In c s.
Proof.
  unfold rstrip. intros H. apply in_rev in H. apply lstrip_incl in H.
  now apply in_rev.
Qed.

Lemma all_space_rstrip (s : text) :
  all_space s = false -> all_space (rstrip s) = false.
Proof.
  induction s as [|c s IH]; intros H.
  - discriminate.
  - rewrite rstrip_cons. destruct (all_space s) eqn:Hs.
    + simpl in H. fold (all_space s) in H. rewrite Hs, andb_true_r in H.
      rewrite H. simpl. now rewrite H.
    + simpl. fold (all_space (rstrip s)). rewrite (IH eq_refl).
      apply andb_false_r.
Qed.

Lemma rstrip_idempotent (s : text) : rstrip (rstrip s) = rstrip s.
Proof.
  induction s as [|c s IH].
  - reflexivity.
  - rewrite rstrip_cons. destruct (all_space s) eqn:Hs.
    + destruct (is_space c) eqn:Hc; [reflexivity|].
      rewrite rstrip_cons. simpl. now rewrite Hc.
    + rewrite rstrip_cons, IH. now rewrite all_space_rstrip.
Qed.

Lemma lstrip_rstrip (s : text) : lstrip (rstrip s) = rstrip (lstrip s).
Proof.
  induction s as [|c s IH].
  - reflexivity.
  - rewrite rstrip_cons. simpl lstrip at 2.
    destruct (is_space c) eqn:Hc.
    + destruct (all_space s) eqn:Hs.
      * simpl. now rewrite lstrip_nil_all_space.
      * simpl. now rewrite Hc.
    + rewrite rstrip_cons.
      destruct (all_space s); simpl; now rewrite Hc.
Qed.

Lemma lstrip_idempotent (s : text) : lstrip (lstrip s) = lstrip s.
Proof.
  induction s as [|c s IH]; simpl.
  - reflexivity.
  - destruct (is_space c) eqn:Hc; [exact IH|]. simpl. now rewrite Hc.
Qed.

Lemma strip_rstrip (s : text) : strip (rstrip s) = strip s.
Proof.
  unfold strip. now rewrite lstrip_rstrip, rstrip_idempotent.
Qed.

Lemma strip_idempotent (s : text) : strip (strip s) = strip s.
Proof.
  unfold strip. now rewrite lstrip_rstrip, rstrip_idempotent, lstrip_idempotent.
Qed.

Lemma strip_incl (s : text) (c : ascii) : In c (strip s) -> In c s.
Proof.
  unfold strip. intros H. now apply lstrip_incl, rstrip_incl.
Qed.

(** ** Annotation stripping *)

Lemma strip_prefix_app (p rest : text) : strip_prefix p (p ++ rest) = Some rest.
Proof.
  induction p as [|a p IH]; simpl.
  - reflexivity.
  - destruct (ascii_dec a a); [exact IH | congruence].
Qed.

Lemma strip_prefix_some (p s rest : text) :
  strip_prefix p s = Some rest -> s = p ++ rest.
Proof.
  revert s. induction p as [|a p IH]; intros s; simpl.
  - now intros [= ->].
  - destruct s as [|b s]; [discriminate|].
    destruct (ascii_dec a b) as [->|]; [|discriminate].
    intros H. now rewrite (IH _ H).
Qed.

(** An alternation whose every successful alternative leaves [r] gives [r] as
    soon as one alternative succeeds. *)
Lemma match_alternatives_determined {A} (alts : list text) (s : text)
  (k : text -> option A) (r : A) :
  (forall a rest r', In a alts -> strip_prefix a s = Some rest ->
                     k rest = Some r' -> r' = r) ->
  (exists a rest, In a alts /\ strip_prefix a s = Some rest /\ k rest = Some r) ->
  match_alternatives alts s k = Some r.
Proof.
  induction alts as [|a alts IH]; intros Hall [a0 [rest0 [Hin [Hpre Hk]]]].
  - destruct Hin.
  - simpl. destruct (strip_prefix a s) as [rest|] eqn:Ea.
    + destruct (k rest) as [r'|] eqn:Ek.
      * f_equal. exact (Hall a rest r' (or_introl eq_refl) Ea Ek).
      * apply IH.
        -- intros a1 rest1 r1 Hin1. apply Hall. now right.
        -- destruct Hin as [<- | Hin].
           ++ rewrite Ea in Hpre. injection Hpre as <-. congruence.
           ++ now exists a0, rest0.
    + apply IH.
      * intros a1 rest1 r1 Hin1. apply Hall. now right.
      * destruct Hin as [<- | Hin]; [congruence|]. now exists a0, rest0.
Qed.

(** Two ways of cutting a text at the first occurrence of [c] agree. *)
Lemma cut_at_first (c : ascii) (x x' y y' : text) :
  ~ In c x -> ~ In c x' -> x ++ c :: y = x' ++ c :: y' -> x = x' /\ y = y'.
Proof.
  revert x'. induction x as [|a x IH]; intros x' Hx Hx' E.
  - destruct x' as [|a' x']; simpl in E.
    + now injection E.
    + injection E as <- _. exfalso. apply Hx'. now left.
  - destruct x' as [|a' x']; simpl in E.
    + injection E as -> _. exfalso. apply Hx. now left.
    + injection E as <- E.
      destruct (IH x') as [-> ->]; auto.
      * intros H. apply Hx. now right.
      * intros H. apply Hx'. now right.
Qed.

Lemma sub_from_inside (alts : list text) (n : nat) (s : text) :
  sub_from alts n s = sub_from alts 0 (skipn n s).
Proof.
  revert n. induction s as [|c s IH]; intros n.
  - now destruct n.
  - destruct n as [|n]; [reflexivity|]. simpl sub_from at 1. apply IH.
Qed.

Lemma free_of_spec (c : ascii) (s : text) : free_of c s = true <-> ~ In c s.
Proof.
  unfold free_of. rewrite forallb_forall. split.
  - intros H Hin. specialize (H c Hin). now rewrite Ascii.eqb_refl in H.
  - intros H d Hd. destruct (Ascii.eqb_spec d c) as [->|]; [contradiction|].
    reflexivity.
Qed.

(** The pattern starts with "(" after optional white space: where what is
    left after the white space does not start with "(", there is no match. *)
Lemma match_annotation_needs_paren (alts : list text) (s : text) :
  (forall rest, lstrip s <> "("%char :: rest) ->
  match_annotation alts s = None.
Proof.
  intros H. unfold match_annotation.
  destruct (lstrip s) as [|c rest] eqn:E; [reflexivity|].
  destruct c as [[] [] [] [] [] [] [] []]; try reflexivity.
  exfalso. exact (H rest eq_refl).
Qed.

(** A text without "(" is left as it is. *)
Lemma sub_from_unchanged (alts : list text) (s : text) :
  free_of "(" s = true -> sub_from alts 0 s = s.
Proof.
  induction s as [|c s IH]; intros H.
  - reflexivity.
  - simpl sub_from. rewrite match_annotation_needs_paren.
    + f_equal. apply IH. simpl in H. now apply andb_true_iff in H as [_ H].
    + intros rest E. apply lstrip_head in E as [_ Hin].
      apply free_of_spec in H. contradiction.
Qed.

Lemma match_alternatives_some {A} (alts : list text) (s : text)
  (k : text -> option A) (r : A) :
  match_alternatives alts s k = Some r ->
  exists a rest, In a alts /\ strip_prefix a s = Some rest /\ k rest = Some r.
Proof.
  induction alts as [|a alts IH]; simpl; intros H.
  - discriminate.
  - destruct (strip_prefix a s) as [rest|] eqn:Ea.
    + destruct (k rest) as [r'|] eqn:Ek.
      * injection H as ->. exists a, rest. auto.
      * destruct (IH H) as [a0 [rest0 [Hin H0]]]. exists a0, rest0. auto.
    + destruct (IH H) as [a0 [rest0 [Hin H0]]]. exists a0, rest0. auto.
Qed.

Lemma last_or_nil {A} (s : list A) : s = [] \/ exists s' x, s = s' ++ [x].
Proof.
  destruct s as [|a s] using rev_ind; [now left | right; eauto].
Qed.

Section AnnotationMatch.

Variable names : list text.
Variables A B : text.
Hypothesis A_known : In A names.
Hypothesis B_known : In B names.
Hypothesis no_arrow : arrow_free names = true.
Hypothesis closing : closes_only_at_end names B = true.

Lemma match_destination :
  match_alternatives names (B ++ [")"%char]) close_paren = Some [].
Proof.
  apply match_alternatives_determined.
  - intros a rest r' Hin Hpre Hk.
    apply strip_prefix_some in Hpre.
    destruct rest as [|c s5]; [discriminate|]. unfold close_paren in Hk.
    destruct (ascii_dec c ")") as [->|Hc].
    + injection Hk as <-.
      destruct (last_or_nil s5) as [-> | [s5' [x ->]]]; [reflexivity|].
      exfalso.
      assert (B ++ [")"%char] = ((a ++ ")") ++ s5') ++ [x]) as HB
        by (rewrite Hpre, <- !app_assoc; reflexivity).
      apply app_inj_tail in HB as [HB _].
      unfold closes_only_at_end in closing.
      rewrite forallb_forall in closing. specialize (closing a Hin).
      unfold starts_with in closing.
      rewrite HB, strip_prefix_app in closing. discriminate.
    + destruct c as [[] [] [] [] [] [] [] []]; try discriminate.
      exfalso. now apply Hc.
  - exists B, [")"%char]. repeat split.
    + exact B_known.
    + apply strip_prefix_app.
Qed.

Lemma annotation_matches (w : text) :
  all_space w = true ->
  match_annotation names (w ++ annotation A B) = Some [].
Proof.
  intros Hw. unfold match_annotation. rewrite lstrip_all_space by exact Hw.
  change (annotation A B)
    with ("("%char :: A ++ " "%char :: "-"%char :: ">"%char :: " "%char
                   :: B ++ [")"%char]).
  simpl lstrip.
  assert (forall k, In k names -> ~ In ">"%char (k ++ [" "%char; "-"%char]))
    as Hfree.
  { intros k Hk Hin. apply in_app_or in Hin as [Hin | Hin].
    - unfold arrow_free in no_arrow. rewrite forallb_forall in no_arrow.
      specialize (no_arrow k Hk). apply free_of_spec in no_arrow.
      contradiction.
    - simpl in Hin. intuition discriminate. }
  apply match_alternatives_determined.
  - intros a rest r' Hin Hpre Hk.
    apply strip_prefix_some in Hpre.
    destruct (strip_prefix " -> " rest) as [s3|] eqn:E3; [|discriminate].
    apply strip_prefix_some in E3. subst rest.
    assert ((A ++ [" "%char; "-"%char]) ++ ">"%char :: " "%char :: B ++ [")"%char]
            = (a ++ [" "%char; "-"%char]) ++ ">"%char :: " "%char :: s3) as Hcut.
    { rewrite <- !app_assoc. exact Hpre. }
    apply cut_at_first in Hcut as [_ Hs3]; auto.
    injection Hs3 as <-.
    rewrite match_destination in Hk. now injection Hk.
  - exists A, (" -> " ++ B ++ [")"%char]). repeat split.
    + exact A_known.
    + apply strip_prefix_app.
    + change (strip_prefix " -> " (" -> " ++ B ++ [")"%char]))
        with (Some (B ++ [")"%char])).
      apply match_destination.
Qed.

Lemma sub_from_consumed (s : text) :
  match_annotation names s = Some [] -> sub_from names 0 s = [].
Proof.
  destruct s as [|c rest]; [reflexivity|]. intros H. simpl sub_from.
  rewrite H, sub_from_inside. simpl List.length.
  rewrite Nat.sub_0_r, skipn_all. reflexivity.
Qed.

Lemma lstrip_nonempty (s : text) :
  all_space s = false -> exists c rest, lstrip s = c :: rest.
Proof.
  induction s as [|c s IH]; simpl; intros H.
  - discriminate.
  - destruct (is_space c); simpl in H; eauto.
Qed.

(** Scanning [body (A -> B)]: the body is kept up to its trailing white
    space, the rest is one match. *)
Lemma sub_from_annotated (body : text) :
  free_of "(" body = true ->
  sub_from names 0 (body ++ " " ++ annotation A B) = rstrip body.
Proof.
  induction body as [|c body IH]; intros Hfree.
  - apply sub_from_consumed. apply (annotation_matches " "). reflexivity.
  - destruct (all_space (c :: body)) eqn:Hall.
    + rewrite rstrip_all_space by exact Hall.
      apply sub_from_consumed. rewrite app_assoc.
      apply annotation_matches. unfold all_space in *.
      rewrite forallb_app, Hall. reflexivity.
    + change ((c :: body) ++ " " ++ annotation A B)
        with (c :: (body ++ " " ++ annotation A B)).
      cbn [sub_from].
      rewrite match_annotation_needs_paren.
      * rewrite IH by (simpl in Hfree; now apply andb_true_iff in Hfree as [_ H]).
        rewrite rstrip_cons. simpl in Hall. fold (all_space body) in Hall.
        destruct (all_space body) eqn:Hbody.
        -- rewrite andb_true_r in Hall. rewrite Hall.
           now rewrite rstrip_all_space.
        -- reflexivity.
      * intros rest E.
        change (c :: body ++ " " ++ annotation A B)
          with ((c :: body) ++ " " ++ annotation A B) in E.
        rewrite lstrip_not_all_space in E by exact Hall.
        destruct (lstrip_nonempty _ Hall) as [d [more Hd]].
        rewrite Hd in E. injection E as -> _.
        apply lstrip_head in Hd as [_ Hin].
        apply free_of_spec in Hfree. contradiction.
Qed.

End AnnotationMatch.

Lemma free_of_strip (c : ascii) (s : text) :
  free_of c s = true -> free_of c (strip s) = true.
Proof.
  rewrite !free_of_spec. intros H Hin. apply H. now apply strip_incl.
Qed.

(** C4, as stated, fails.  The pattern is matched case-sensitively: an
    annotation written in another case stays.  And every match is removed,
    not only a trailing one, so that one pass can leave a trailing
    annotation, which a second pass removes. *)
Lemma strip_annotation_not_idempotent :
  lower "(ENGLISH -> FRENCH)" = lower (annotation "English" "French")
  /\ strip_annotation sample_languages "hola (ENGLISH -> FRENCH)"
     = "hola (ENGLISH -> FRENCH)"
  /\ strip_annotation sample_languages
       ("x (Eng(English -> French)lish -> French) "
          ++ annotation "English" "French")
     = "x " ++ annotation "English" "French"
  /\ strip_annotation sample_languages ("x " ++ annotation "English" "French")
     = "x".
Proof. repeat split. Qed.

(** *** Where the pattern matches *)

Lemma match_alternatives_complete {A} (alts : list text) (s : text)
  (k : text -> option A) :
  (exists a rest, In a alts /\ strip_prefix a s = Some rest /\ k rest <> None) ->
  match_alternatives alts s k <> None.
Proof.
  induction alts as [|a alts IH]; intros [a0 [rest0 [Hin [Hpre Hk]]]].
  - destruct Hin.
  - simpl. destruct (strip_prefix a s) as [rest|] eqn:Ea.
    + destruct (k rest) as [r|] eqn:Ek; [discriminate|].
      apply IH. destruct Hin as [<- | Hin]; [congruence|].
      now exists a0, rest0.
    + apply IH. destruct Hin as [<- | Hin]; [congruence|].
      now exists a0, rest0.
Qed.

Lemma annotation_cons (A B rest : text) :
  annotation A B ++ rest
  = "("%char :: A ++ " -> " ++ B ++ ")"%char :: rest.
Proof.
  unfold annotation. rewrite <- !app_assoc. reflexivity.
Qed.

(** The pattern matches at the start of [s] exactly when [s], after white
    space, starts with [(A -> B)] for two of the alternatives, written as
    they are. *)
Lemma match_annotation_occurs (alts : list text) (s : text) :
  match_annotation alts s <> None <->
  exists A B rest, In A alts /\ In B alts /\ lstrip s = annotation A B ++ rest.
Proof.
  unfold match_annotation. split.
  - destruct (lstrip s) as [|c s1]; [congruence|].
    destruct (ascii_dec c "(") as [->|Hc];
      [|destruct c as [[] [] [] [] [] [] [] []]; congruence].
    destruct (match_alternatives alts s1 _) as [r|] eqn:E; [|congruence].
    intros _. apply match_alternatives_some in E as [A [rest [HA [Hpre Hk]]]].
    destruct (strip_prefix " -> " rest) as [s3|] eqn:E3; [|discriminate].
    apply match_alternatives_some in Hk as [B [rest4 [HB [Hpre4 Hk]]]].
    destruct rest4 as [|d s5]; [discriminate|]. unfold close_paren in Hk.
    destruct (ascii_dec d ")") as [->|Hd];
      [|destruct d as [[] [] [] [] [] [] [] []]; congruence].
    apply strip_prefix_some in Hpre, E3, Hpre4. subst s1 rest s3.
    exists A, B, s5. rewrite annotation_cons. auto.
  - intros [A [B [rest [HA [HB ->]]]]]. rewrite annotation_cons.
    apply match_alternatives_complete.
    exists A, (" -> " ++ B ++ ")"%char :: rest). split; [exact HA|].
    split; [apply strip_prefix_app|]. rewrite strip_prefix_app.
    apply match_alternatives_complete.
    exists B, (")"%char :: rest). split; [exact HB|].
    split; [apply strip_prefix_app | discriminate].
Qed.

Lemma lstrip_suffix (s : text) : exists lead, s = lead ++ lstrip s.
Proof.
  induction s as [|c s [lead IH]]; [now exists []|]. simpl.
  destruct (is_space c).
  - exists (c :: lead). simpl. now f_equal.
  - now exists [].
Qed.

Lemma rstrip_prefix (s : text) : exists trailing, s = rstrip s ++ trailing.
Proof.
  unfold rstrip. destruct (lstrip_suffix (rev s)) as [lead H].
  exists (rev lead). rewrite <- rev_app_distr, <- H. now rewrite rev_involutive.
Qed.

Lemma strip_inside (s : text) :
  exists lead trailing, s = lead ++ strip s ++ trailing.
Proof.
  destruct (lstrip_suffix s) as [lead Hl].
  destruct (rstrip_prefix (lstrip s)) as [trailing Hr].
  exists lead, trailing. unfold strip. now rewrite <- Hr.
Qed.

(** A match stays a match when the text goes on. *)
Lemma match_annotation_extends (alts : list text) (s more : text) :
  match_annotation alts s <> None -> match_annotation alts (s ++ more) <> None.
Proof.
  rewrite !match_annotation_occurs. intros [A [B [rest [HA [HB H]]]]].
  exists A, B, (rest ++ more). split; [exact HA|]. split; [exact HB|].
  rewrite lstrip_not_all_space, H; [now rewrite app_assoc|].
  destruct (all_space s) eqn:Hs; [|reflexivity].
  rewrite lstrip_nil_all_space in H by exact Hs.
  rewrite annotation_cons in H. discriminate.
Qed.

Lemma matches_nowhere_spec (alts : list text) (s after : text) :
  matches_nowhere alts s after = true <->
  (forall pre post, s = pre ++ post -> post <> [] ->
                    match_annotation alts (post ++ after) = None).
Proof.
  induction s as [|c s IH].
  - split; [|reflexivity]. intros _ pre post E Hpost.
    symmetry in E. apply app_eq_nil in E as [_ ->]. congruence.
  - cbn [matches_nowhere].
    destruct (match_annotation alts ((c :: s) ++ after)) as [r|] eqn:E.
    + split; [discriminate|]. intros H.
      rewrite (H [] (c :: s) eq_refl) in E; [discriminate E | discriminate].
    + rewrite IH. split.
      * intros H pre post Hs Hpost. destruct pre as [|d pre].
        -- simpl in Hs. now subst post.
        -- injection Hs as _ Hs. now apply (H pre).
      * intros H pre post Hs Hpost. apply (H (c :: pre)); [|exact Hpost].
        simpl. now f_equal.
Qed.

(** Where the pattern matches nowhere, [re.sub] keeps the text. *)
Lemma sub_from_kept (alts : list text) (s after : text) :
  matches_nowhere alts s after = true ->
  sub_from alts 0 (s ++ after) = s ++ sub_from alts 0 after.
Proof.
  induction s as [|c s IH]; [reflexivity|]. cbn [matches_nowhere].
  destruct (match_annotation alts ((c :: s) ++ after)) as [r|] eqn:E;
    [discriminate|].
  intros H. change ((c :: s) ++ after) with (c :: s ++ after) in *.
  cbn [sub_from]. rewrite E. cbn [app]. f_equal. now apply IH.
Qed.

(** After a match, [re.sub] goes on with what the match left. *)
Lemma sub_from_match (alts : list text) (matched left : text) :
  matched <> [] ->
  match_annotation alts (matched ++ left) = Some left ->
  sub_from alts 0 (matched ++ left) = sub_from alts 0 left.
Proof.
  intros Hmatched H. destruct matched as [|c matched]; [congruence|].
  change ((c :: matched) ++ left) with (c :: matched ++ left) in *.
  cbn [sub_from]. rewrite H, sub_from_inside. f_equal.
  rewrite length_app, Nat.add_sub.
  rewrite skipn_app, skipn_all, Nat.sub_diag. reflexivity.
Qed.

(** The pattern matches nowhere in what is left of a text in which it
    matches nowhere, whatever followed the text. *)
Lemma matches_nowhere_strip (alts : list text) (s after : text) :
  matches_nowhere alts s after = true ->
  matches_nowhere alts (strip s) [] = true.
Proof.
  rewrite !matches_nowhere_spec. intros H pre post Hs Hpost.
  destruct (strip_inside s) as [lead [trailing Hin]].
  destruct (match_annotation alts (post ++ [])) as [r|] eqn:E; [|reflexivity].
  exfalso. rewrite app_nil_r in E.
  apply (match_annotation_extends alts post (trailing ++ after)).
  - congruence.
  - rewrite app_assoc. apply (H (lead ++ pre)).
    + rewrite Hin at 1. rewrite Hs, <- !app_assoc. reflexivity.
    + destruct post; [congruence | discriminate].
Qed.

Section AnnotationRun.

Variable names : list text.
Hypothesis one_reading : delimited names = true.

Lemma delimited_arrow_free : arrow_free names = true.
Proof.
  unfold delimited in one_reading.
  now apply andb_true_iff in one_reading as [H _].
Qed.

Lemma delimited_closing (a b more : text) :
  In a names -> In b names -> b <> a ++ ")"%char :: more.
Proof.
  intros Ha Hb E. unfold delimited in one_reading.
  apply andb_true_iff in one_reading as [_ H].
  rewrite forallb_forall in H. specialize (H b Hb).
  unfold closes_only_at_end in H. rewrite forallb_forall in H.
  specialize (H a Ha). unfold starts_with in H.
  rewrite E in H.
  replace (a ++ ")"%char :: more) with ((a ++ ")") ++ more) in H
    by (now rewrite <- app_assoc).
  rewrite strip_prefix_app in H. discriminate.
Qed.

(** The destination and the closing parenthesis, whatever follows. *)
Lemma match_destination_then (B rest : text) :
  In B names ->
  match_alternatives names (B ++ ")"%char :: rest) close_paren
  = Some (lstrip rest).
Proof.
  intros HB. apply match_alternatives_determined.
  - intros a r1 r' Hin Hpre Hk. apply strip_prefix_some in Hpre.
    destruct r1 as [|c s5]; [discriminate|]. unfold close_paren in Hk.
    destruct (ascii_dec c ")") as [->|Hc];
      [|destruct c as [[] [] [] [] [] [] [] []]; congruence].
    injection Hk as <-.
    apply app_eq_app in Hpre as [l [[E1 E2] | [E1 E2]]].
    + destruct l as [|d l]; [now injection E2 as -> |].
      injection E2 as <- _. exfalso.
      exact (delimited_closing a B l Hin HB E1).
    + destruct l as [|d l]; [now injection E2 as -> |].
      injection E2 as <- _. exfalso.
      exact (delimited_closing B a l HB Hin E1).
  - exists B, (")"%char :: rest). repeat split.
    + exact HB.
    + apply strip_prefix_app.
Qed.

(** An annotation after white space is one match, up to the white space
    that follows it. *)
Lemma annotation_matches_then (w A B rest : text) :
  all_space w = true -> In A names -> In B names ->
  match_annotation names (w ++ annotation A B ++ rest) = Some (lstrip rest).
Proof.
  intros Hw HA HB. unfold match_annotation.
  rewrite lstrip_all_space by exact Hw. rewrite annotation_cons.
  cbn [lstrip is_space code_in nat_of_ascii]. simpl lstrip.
  assert (forall k, In k names -> ~ In ">"%char (k ++ [" "%char; "-"%char]))
    as Hfree.
  { intros k Hk Hin. apply in_app_or in Hin as [Hin | Hin].
    - pose proof delimited_arrow_free as Harrow.
      unfold arrow_free in Harrow. rewrite forallb_forall in Harrow.
      specialize (Harrow k Hk). apply free_of_spec in Harrow.
      contradiction.
    - simpl in Hin. intuition discriminate. }
  apply match_alternatives_determined.
  - intros a r1 r' Hin Hpre Hk.
    apply strip_prefix_some in Hpre.
    destruct (strip_prefix " -> " r1) as [s3|] eqn:E3; [|discriminate].
    apply strip_prefix_some in E3. subst r1.
    assert ((A ++ [" "%char; "-"%char])
              ++ ">"%char :: " "%char :: B ++ ")"%char :: rest
            = (a ++ [" "%char; "-"%char]) ++ ">"%char :: " "%char :: s3)
      as Hcut.
    { rewrite <- !app_assoc. exact Hpre. }
    apply cut_at_first in Hcut as [_ Hs3]; auto.
    injection Hs3 as <-.
    rewrite match_destination_then in Hk by exact HB. now injection Hk.
  - exists A, (" -> " ++ B ++ ")"%char :: rest). repeat split.
    + exact HA.
    + apply strip_prefix_app.
    + rewrite strip_prefix_app. now apply match_destination_then.
Qed.

(** One annotation is dropped, and the scan goes on behind the white space
    after it. *)
Lemma sub_from_annotation (w A B rest : text) :
  all_space w = true -> In A names -> In B names ->
  sub_from names 0 (w ++ annotation A B ++ rest)
  = sub_from names 0 (lstrip rest).
Proof.
  intros Hw HA HB. destruct (lstrip_suffix rest) as [lead Hlead].
  assert (w ++ annotation A B ++ rest
          = (w ++ annotation A B ++ lead) ++ lstrip rest) as E
    by (rewrite Hlead at 1; now rewrite <- !app_assoc).
  rewrite E. apply sub_from_match.
  - rewrite annotation_cons. now destruct w.
  - rewrite <- E. now apply annotation_matches_then.
Qed.

(** A run of annotations is dropped as a whole. *)
Lemma sub_from_trailer (annotations : list (text * text * text)) (w : text) :
  annotations_over names annotations -> all_space w = true ->
  sub_from names 0 (lstrip (trailer annotations ++ w)) = []
  /\ (annotations <> [] -> sub_from names 0 (trailer annotations ++ w) = []).
Proof.
  intros Hover Hw. induction Hover as [|[[w1 A] B] more [Hw1 [HA HB]] _ IH].
  - split; [|congruence]. cbn [trailer app].
    now rewrite lstrip_nil_all_space.
  - cbn [fst snd] in *. destruct IH as [IH _]. cbn [trailer].
    rewrite <- !app_assoc. split.
    + rewrite lstrip_all_space by exact Hw1.
      assert (lstrip (annotation A B ++ trailer more ++ w)
              = [] ++ annotation A B ++ trailer more ++ w) as ->
        by (now rewrite annotation_cons).
      now rewrite sub_from_annotation.
    + intros _. now rewrite sub_from_annotation.
Qed.

End AnnotationRun.

(** C4, amended.  The display names are matched as [title] writes them,
    letter for letter: the pattern matches at a position exactly when the
    text there, after white space, reads [(A -> B)] for two of them.  For a
    text made of a body in which the pattern matches nowhere and a run of one
    or more annotations after it, one pass gives the trimmed body; the
    pattern matches nowhere in it, so that it ends in no annotation, and a
    further pass leaves it as it is. *)
Theorem strip_annotation_idempotent (LANGUAGES : language_table)
  (body : text) (annotations : list (text * text * text)) (w : text) :
  let names := titles LANGUAGES in
  delimited names = true ->
  annotations <> [] ->
  annotations_over names annotations ->
  all_space w = true ->
  matches_nowhere names body (trailer annotations ++ w) = true ->
  let stripped :=
    strip_annotation LANGUAGES (body ++ trailer annotations ++ w) in
  stripped = strip body
  /\ matches_nowhere names stripped [] = true
  /\ (forall before A B, In A names -> In B names ->
      stripped <> before ++ annotation A B)
  /\ strip_annotation LANGUAGES stripped = stripped
  /\ (forall s, match_annotation (alternatives LANGUAGES) s <> None <->
      exists A B rest,
        In A names /\ In B names /\ lstrip s = annotation A B ++ rest).
Proof.
  intros names Hread Hsome Hover Hw Hbody stripped.
  assert (alternatives LANGUAGES = names) as Halts.
  { destruct LANGUAGES; [|reflexivity].
    destruct annotations as [|item more]; [congruence|].
    inversion Hover as [|? ? [_ [[] _]] _]. }
  assert (stripped = strip body) as Hstripped.
  { unfold stripped, strip_annotation, re_sub_annotation. rewrite Halts.
    rewrite sub_from_kept by exact Hbody.
    destruct (sub_from_trailer names Hread annotations w Hover Hw) as [_ ->];
      [|exact Hsome].
    now rewrite app_nil_r. }
  assert (matches_nowhere names stripped [] = true) as Hnowhere
    by (rewrite Hstripped; exact (matches_nowhere_strip _ _ _ Hbody)).
  split; [exact Hstripped|]. split; [exact Hnowhere|]. split; [|split].
  - intros before A B HA HB E.
    apply (proj1 (matches_nowhere_spec _ _ _)) with (pre := before)
      (post := annotation A B) in Hnowhere; [|exact E | discriminate].
    revert Hnowhere. apply match_annotation_occurs.
    exists A, B, []. split; [exact HA|]. split; [exact HB|].
    now rewrite !annotation_cons.
  - unfold strip_annotation at 1, re_sub_annotation. rewrite Halts.
    rewrite <- (app_nil_r stripped) at 1.
    rewrite sub_from_kept by exact Hnowhere.
    cbn [sub_from]. rewrite app_nil_r, Hstripped. apply strip_idempotent.
  - intros s. rewrite Halts. apply match_annotation_occurs.
Qed.

(** A body with a parenthesis of its own, translated twice. *)
Lemma strip_annotation_idempotent_witness :
  let stripped :=
    strip_annotation sample_languages
      ("hello (world)"
         ++ trailer [ (" " : text, "English" : text, "French" : text);
                      (" " : text, "French" : text,
                       "Chinese (Simplified)" : text) ]
         ++ []) in
  stripped = strip "hello (world)"
  /\ matches_nowhere (titles sample_languages) stripped [] = true
  /\ (forall before A B,
      In A (titles sample_languages) -> In B (titles sample_languages) ->
      stripped <> before ++ annotation A B)
  /\ strip_annotation sample_languages stripped = stripped
  /\ (forall s,
      match_annotation (alternatives sample_languages) s <> None <->
      exists A B rest,
        In A (titles sample_languages) /\ In B (titles sample_languages)
        /\ lstrip s = annotation A B ++ rest).
Proof.
  apply (strip_annotation_idempotent sample_languages "hello (world)"
           [ (" " : text, "English" : text, "French" : text);
             (" " : text, "French" : text, "Chinese (Simplified)" : text) ]
           []).
  - reflexivity.
  - discriminate.
  - unfold annotations_over.
    repeat (apply Forall_cons; [cbn; intuition reflexivity|]).
    apply Forall_nil.
  - reflexivity.
  - reflexivity.
Defined.

(** ** The calculate command *)

Lemma name_start_not_digit (c : ascii) :
  is_name_start c = true -> is_digit c = false.
Proof.
  destruct c as [[] [] [] [] [] [] [] []]; intros H;
    solve [reflexivity | discriminate H].
Qed.

Lemma name_char_cases (c : ascii) :
  is_name_char c = true -> is_digit c = true \/ is_name_start c = true.
Proof.
  unfold is_name_char. intros H. apply orb_true_iff in H as [H | H]; auto.
Qed.

(** Reading name characters extends the pending name. *)
Lemma lex_name_chars (rest acc : text) :
  forallb is_name_char rest = true ->
  lex (PName acc) rest = name_token (rev acc ++ rest).
Proof.
  revert acc. induction rest as [|c rest IH]; intros acc H.
  - simpl. now rewrite app_nil_r.
  - simpl in H. apply andb_true_iff in H as [Hc Hrest].
    assert (lex (PName acc) (c :: rest) = lex (PName (c :: acc)) rest) as ->.
    { simpl. destruct (is_digit c) eqn:Hd; [reflexivity|].
      destruct (name_char_cases c Hc) as [E | E]; [congruence|].
      now rewrite E. }
    rewrite IH by exact Hrest. simpl rev. now rewrite <- app_assoc.
Qed.

(** An identifier is read as one name and parsed as that name. *)
Lemma lex_identifier (id : text) :
  is_identifier id = true -> lex NoPending id = Some [TName id].
Proof.
  destruct id as [|c rest]; [discriminate|]. intros H.
  unfold is_identifier in H.
  apply andb_true_iff in H as [H Hkey].
  apply andb_true_iff in H as [Hstart Hrest].
  simpl. rewrite (name_start_not_digit c Hstart), Hstart.
  rewrite lex_name_chars by exact Hrest. simpl rev. simpl app.
  unfold name_token. apply negb_true_iff in Hkey. rewrite Hkey. reflexivity.
Qed.

Lemma py_eval_identifier (names : namespace) (id : text) :
  is_identifier id = true ->
  py_eval names id
  = match lookup names id with
    | Some v => Returned v
    | None => Raised (name_error id)
    end.
Proof.
  intros H. unfold py_eval. rewrite (lex_identifier id H). reflexivity.
Qed.

Lemma lookup_app (first second : namespace) (id : text) :
  lookup (first ++ second) id
  = match lookup first id with
    | Some v => Some v
    | None => lookup second id
    end.
Proof.
  induction first as [|[name v] first IH]; simpl.
  - reflexivity.
  - destruct (text_eqb id name); [reflexivity | exact IH].
Qed.

(** A name holds no "^" to replace. *)
Lemma replace_char_names (s : text) :
  forallb is_name_char s = true -> replace_char "^" "**" s = s.
Proof.
  unfold replace_char. induction s as [|ch more IH]; intros H.
  - reflexivity.
  - simpl in H. apply andb_true_iff in H as [Hch Hmore]. cbn [flat_map].
    destruct (ascii_dec ch "^") as [->|_]; [discriminate|].
    cbn [app]. f_equal. now apply IH.
Qed.

(** C1, as stated, fails.  [MAX_MESSAGE_LENGTH] and [ID] are not names of the
    calculator, yet [c] evaluates them and reports what the module binds them
    to. *)
Lemma c_resolves_module_globals :
  ~ In ("MAX_MESSAGE_LENGTH" : text) math_names
  /\ ~ In ("ID" : text) math_names
  /\ c 424242 [] ["MAX_MESSAGE_LENGTH" : text]
     = ([Reply "Total: **2000**"], Returned tt)
  /\ c 424242 [] ["ID" : text; "+" : text; "0" : text]
     = ([Reply "Total: **424242**"], Returned tt).
Proof.
  repeat split; try (vm_compute; reflexivity);
    simpl; intuition discriminate.
Qed.

(** C1, amended.  An identifier evaluates to what the scope of [c] binds it
    to: the handler's locals, the module's globals, the interpreter's names,
    in that order.  It is rejected, with a [NameError], only when none of
    them binds it.  The names imported from [math] are bound; a name bound to
    an integer is answered with that integer. *)
Theorem eval_resolves_scope (ID : Z) (interpreter_names : namespace) (id : text) :
  is_identifier id = true ->
  py_eval (scope ID interpreter_names) id
  = match lookup (c_locals ++ module_globals ID ++ interpreter_names) id with
    | Some v => Returned v
    | None => Raised (name_error id)
    end
  /\ (forall name, In name math_names ->
      exists v, lookup (scope ID interpreter_names) name = Some v)
  /\ (forall n : Z,
      lookup (scope ID interpreter_names) id = Some (VInt n) ->
      List.length (str_of_int (Z.abs n)) <= max_str_digits ->
      c ID interpreter_names [id]
      = ([Reply ("Total: **" ++ str_of_int n ++ "**")], Returned tt)).
Proof.
  intros Hid. split; [|split].
  - now apply py_eval_identifier.
  - intros name Hin. unfold scope. rewrite !lookup_app.
    simpl in Hin.
    repeat (destruct Hin as [<- | Hin]; [eexists; reflexivity|]).
    destruct Hin.
  - intros n Hn Hdigits. unfold c, c_body.
    assert (replace_char "^" "**" (join " " [id]) = id) as ->.
    { simpl join. apply replace_char_names.
      destruct id as [|first rest]; [discriminate|].
      unfold is_identifier in Hid.
      apply andb_true_iff in Hid as [Hid _].
      apply andb_true_iff in Hid as [Hfirst Hrest].
      simpl. unfold is_name_char at 1. now rewrite Hfirst, Hrest. }
    destruct id as [|first rest]; [discriminate|].
    rewrite (py_eval_identifier _ _ Hid), Hn.
    unfold lift, bind, py_round, format_value.
    apply Nat.leb_le in Hdigits. rewrite Hdigits. reflexivity.
Qed.

Lemma eval_resolves_scope_witness :
  py_eval (scope 424242 []) "LANGUAGES" = Returned (VOther "dict")
  /\ py_eval (scope 424242 []) "foo" = Raised (name_error "foo").
Proof.
  split.
  - apply (eval_resolves_scope 424242 [] "LANGUAGES"). reflexivity.
  - apply (eval_resolves_scope 424242 [] "foo"). reflexivity.
Defined.

Lemma name_char_not_space (c : ascii) :
  is_name_char c = true -> is_space c = false.
Proof.
  destruct c as [[] [] [] [] [] [] [] []]; intros H;
    solve [reflexivity | discriminate H].
Qed.

Lemma words_from_name (id current rest : text) :
  forallb is_name_char id = true ->
  words_from current (id ++ rest) = words_from (rev id ++ current) rest.
Proof.
  revert current. induction id as [|ch id IH]; intros current H.
  - reflexivity.
  - simpl in H. apply andb_true_iff in H as [Hch Hid].
    simpl. rewrite (name_char_not_space ch Hch), IH by exact Hid.
    now rewrite <- app_assoc.
Qed.

Lemma removelast_last {A} (s : list A) (x : A) : removelast (s ++ [x]) = s.
Proof.
  induction s as [|a s IH]; [reflexivity|].
  simpl. rewrite IH. destruct (s ++ [x]) eqn:E; [|reflexivity].
  now destruct s.
Qed.

(** The text of the [NameError] that [eval] raises does name the identifier
    where the specification looks for it. *)
Lemma named_identifier_name_error (id : text) :
  is_identifier id = true ->
  named_identifier (exc_str (name_error id)) = Some id.
Proof.
  intros Hid.
  assert (forallb is_name_char id = true) as Hall.
  { destruct id as [|first rest]; [discriminate|].
    unfold is_identifier in Hid.
    apply andb_true_iff in Hid as [Hid _].
    apply andb_true_iff in Hid as [Hfirst Hrest].
    simpl. unfold is_name_char at 1. now rewrite Hfirst, Hrest. }
  unfold named_identifier, split, name_error. cbn [exc_str].
  change (words_from [] ("name '" ++ id ++ "' is not defined"))
    with (("name" : text) :: words_from ["'"%char] (id ++ "' is not defined")).
  rewrite words_from_name by exact Hall.
  change (words_from (rev id ++ ["'"%char]) "' is not defined")
    with (rev ("'"%char :: rev id ++ ["'"%char])
            :: words_from [] "is not defined").
  simpl rev. rewrite rev_app_distr, rev_involutive.
  cbn [rev app tl]. f_equal. apply removelast_last.
Qed.

(** C2, on the code.  When evaluation raises a [NameError], the clause that
    handles it asks the exception for [split], which an exception does not
    have: the [AttributeError] leaves the handler and nothing is sent. *)
Theorem c_name_error_escapes (ID : Z) (interpreter_names : namespace)
  (equation : list text) (e : exception) :
  let eq := replace_char "^" "**" (join " " equation) in
  eq <> [] ->
  py_eval (scope ID interpreter_names) eq = Raised e ->
  exc_class e = NameError ->
  c ID interpreter_names equation
  = ([], Raised (mkException AttributeError
                   "'NameError' object has no attribute 'split'")).
Proof.
  intros eq Hne Heval Hclass. unfold c, c_body. fold eq.
  destruct eq as [|ch more] eqn:E; [congruence|].
  rewrite Heval. unfold lift, bind, try_except. rewrite Hclass.
  unfold getattr_exception. rewrite Hclass. reflexivity.
Qed.

Lemma c_name_error_escapes_witness :
  c 424242 [] ["foo(1)" : text]
  = ([], Raised (mkException AttributeError
                   "'NameError' object has no attribute 'split'")).
Proof.
  apply (c_name_error_escapes 424242 [] ["foo(1)" : text] (name_error "foo")).
  - discriminate.
  - reflexivity.
  - reflexivity.
Defined.

(** * Further properties *)

(** ** Language registry *)

Lemma to_lower_idempotent (c : ascii) : to_lower (to_lower c) = to_lower c.
Proof. destruct c as [[] [] [] [] [] [] [] []]; reflexivity. Qed.

Lemma to_lower_to_upper (c : ascii) : to_lower (to_upper c) = to_lower c.
Proof. destruct c as [[] [] [] [] [] [] [] []]; reflexivity. Qed.

Lemma lower_idempotent (s : text) : lower (lower s) = lower s.
Proof.
  unfold lower. rewrite map_map. apply map_ext. exact to_lower_idempotent.
Qed.

Lemma lower_upper (s : text) : lower (upper s) = lower s.
Proof.
  unfold lower, upper. rewrite map_map. apply map_ext. exact to_lower_to_upper.
Qed.

(** X1.  On an ASCII argument [get_lang_code] does not tell the cases
    apart: the argument, its upper-case form and its lower-case form resolve
    alike.  (Beyond ASCII Python's case mappings do more than [upper] and
    [lower] here, and the statement is not made.) *)
Theorem get_lang_code_any_case (LANGUAGES : language_table) (dest_lang : text) :
  forallb is_ascii dest_lang = true ->
  get_lang_code LANGUAGES (upper dest_lang) = get_lang_code LANGUAGES dest_lang
  /\ get_lang_code LANGUAGES (lower dest_lang)
     = get_lang_code LANGUAGES dest_lang.
Proof.
  intros _. unfold get_lang_code. now rewrite lower_upper, lower_idempotent.
Qed.

Lemma get_lang_code_any_case_witness :
  get_lang_code sample_languages (upper "French")
  = get_lang_code sample_languages "French"
  /\ get_lang_code sample_languages (lower "French")
     = get_lang_code sample_languages "French".
Proof.
  apply (get_lang_code_any_case sample_languages "French"). reflexivity.
Defined.

Lemma in_values_true (LANGUAGES : language_table) (code : text) :
  in_values LANGUAGES code = true <->
  exists name, In (name, code) LANGUAGES.
Proof.
  unfold in_values. rewrite existsb_exists. split.
  - intros [[name value] [Hin Heq]]. apply text_eqb_eq in Heq.
    simpl in Heq. subst value. now exists name.
  - intros [name Hin]. exists (name, code). split; [exact Hin|].
    apply text_eqb_refl.
Qed.

Lemma table_lookup_listed (LANGUAGES : language_table) (token : text)
  (item : text * text) :
  In item LANGUAGES -> fst item = token \/ snd item = token ->
  exists code, table_lookup LANGUAGES token = Some code.
Proof.
  induction LANGUAGES as [|first rest IH]; simpl; intros Hin Hmatch.
  - destruct Hin.
  - destruct (in_item token first) eqn:Hfirst; [eauto|].
    destruct Hin as [-> | Hin]; [|now apply IH].
    unfold in_item in Hfirst. apply orb_false_iff in Hfirst as [Hk Hv].
    apply text_eqb_neq in Hk, Hv. destruct Hmatch; congruence.
Qed.

(** X2.  What [get_lang_code] returns is a code of the table or one of the
    two Chinese codes, and nothing else. *)
Theorem get_lang_code_range (LANGUAGES : language_table)
  (dest_lang code : text) :
  get_lang_code LANGUAGES dest_lang = Some code ->
  in_values LANGUAGES code = true
  \/ code = ("zh-CN" : text) \/ code = ("zh-TW" : text).
Proof.
  unfold get_lang_code.
  destruct (table_lookup LANGUAGES (lower dest_lang)) as [found|] eqn:E.
  - intros [= <-]. left.
    destruct (table_lookup_some _ _ _ E) as [[name value] [Hin [Hcode _]]].
    simpl in Hcode. subst value. apply in_values_true. now exists name.
  - unfold special_case.
    destruct (text_eqb (lower dest_lang) "chinese"
              || text_eqb (lower dest_lang) "zh");
      [intros [= <-]; auto|].
    destruct (text_eqb (lower dest_lang) "zh-tw"); [intros [= <-]; auto|].
    destruct (text_eqb (lower dest_lang) "zh-cn"); [intros [= <-]; auto|].
    discriminate.
Qed.

Lemma get_lang_code_range_witness :
  in_values sample_languages "fr" = true
  \/ ("fr" : text) = ("zh-CN" : text) \/ ("fr" : text) = ("zh-TW" : text).
Proof.
  apply (get_lang_code_range sample_languages "FRENCH" "fr"). reflexivity.
Defined.

(** X3.  A name or a code of the table, typed in any case, resolves to a
    code of the table whenever its lower-case form is the name or the code
    as the table has it. *)
Theorem get_lang_code_listed (LANGUAGES : language_table) (dest_lang : text)
  (item : text * text) :
  In item LANGUAGES ->
  fst item = lower dest_lang \/ snd item = lower dest_lang ->
  exists code, get_lang_code LANGUAGES dest_lang = Some code
               /\ in_values LANGUAGES code = true.
Proof.
  intros Hin Hmatch.
  destruct (table_lookup_listed _ _ _ Hin Hmatch) as [code Hcode].
  exists code. unfold get_lang_code. rewrite Hcode. split; [reflexivity|].
  destruct (table_lookup_some _ _ _ Hcode) as [[name value] [Hin' [Hv _]]].
  simpl in Hv. subst value. apply in_values_true. now exists name.
Qed.

Lemma get_lang_code_listed_witness :
  exists code, get_lang_code sample_languages "French" = Some code
               /\ in_values sample_languages code = true.
Proof.
  apply (get_lang_code_listed sample_languages "French"
           ("french" : text, "fr" : text)).
  - simpl. auto.
  - left. reflexivity.
Defined.

(** X4.  The table is compared with the lower-cased argument as it stands: a
    code written with an upper-case letter is not found by typing it, unless
    its lower-case form is listed too or is one of the Chinese tokens. *)
Theorem get_lang_code_mixed_case_code (LANGUAGES : language_table)
  (name code : text) :
  In (name, code) LANGUAGES ->
  unlisted LANGUAGES (lower code) ->
  special_case (lower code) = None ->
  get_lang_code LANGUAGES code = None /\ lower code <> code.
Proof.
  intros Hin Hun Hspecial. split.
  - unfold get_lang_code. now rewrite (table_lookup_unlisted _ _ Hun).
  - intros E. destruct (Hun (name, code) Hin) as [_ Hv]. simpl in Hv.
    congruence.
Qed.

(** The translation library lists Meiteilon under a code in mixed case. *)
Lemma get_lang_code_mixed_case_code_witness :
  get_lang_code
    [ ("english" : text, "en" : text);
      ("meiteilon (manipuri)" : text, "mni-Mtei" : text) ] "mni-Mtei" = None
  /\ lower "mni-Mtei" <> "mni-Mtei".
Proof.
  apply (get_lang_code_mixed_case_code
           [ ("english" : text, "en" : text);
             ("meiteilon (manipuri)" : text, "mni-Mtei" : text) ]
           "meiteilon (manipuri)" "mni-Mtei").
  - simpl. auto.
  - intros item [<- | [<- | []]]; split; discriminate.
  - reflexivity.
Defined.

Lemma key_from_value_none (dictionary : language_table) (value : text) :
  key_from_value dictionary value = None <->
  in_values dictionary value = false.
Proof.
  induction dictionary as [|[k v] rest IH]; simpl.
  - tauto.
  - destruct (text_eqb value v); simpl; [split; discriminate | exact IH].
Qed.

Lemma key_from_value_some (dictionary : language_table) (value key : text) :
  key_from_value dictionary value = Some key -> In (key, value) dictionary.
Proof.
  induction dictionary as [|[k v] rest IH]; simpl.
  - discriminate.
  - destruct (text_eqb value v) eqn:E.
    + apply text_eqb_eq in E. subst v. intros [= <-]. now left.
    + intros H. right. now apply IH.
Qed.

(** X5.  [key_from_value] finds a key exactly for the values of the
    dictionary, and the key it returns carries the value. *)
Theorem key_from_value_found (dictionary : language_table) (value : text) :
  (key_from_value dictionary value = None <->
   in_values dictionary value = false)
  /\ (forall key, key_from_value dictionary value = Some key ->
      In (key, value) dictionary).
Proof.
  split; [apply key_from_value_none|].
  intros key. apply key_from_value_some.
Qed.

Lemma key_from_value_found_witness :
  In ("french" : text, "fr" : text) sample_languages
  /\ in_values sample_languages "xx" = false.
Proof.
  split.
  - apply (key_from_value_found sample_languages "fr"). reflexivity.
  - apply (key_from_value_found sample_languages "xx"). reflexivity.
Defined.

(** ** Message delivery *)

Lemma range_length (start stop step : nat) :
  List.length (range start stop step) = (stop - start + (step - 1)) / step.
Proof. unfold range. now rewrite length_map, length_seq. Qed.

Lemma nth_map_in {A B} (f : A -> B) (s : list A) (d : A) (d' : B) (k : nat) :
  k < List.length s -> nth k (map f s) d' = f (nth k s d).
Proof.
  revert k. induction s as [|x s IH]; intros k Hk; simpl in Hk.
  - lia.
  - destruct k as [|k]; [reflexivity|]. simpl. apply IH. lia.
Qed.

Lemma range_nth (start stop step k : nat) :
  k < List.length (range start stop step) ->
  nth k (range start stop step) 0 = start + k * step.
Proof.
  intros Hk. rewrite range_length in Hk. unfold range.
  rewrite (nth_map_in _ _ 0) by (now rewrite length_seq).
  now rewrite seq_nth.
Qed.

(** Every index of the range is below [stop]. *)
Lemma range_below (start stop step k : nat) :
  0 < step -> k < (stop - start + (step - 1)) / step ->
  start + k * step < stop.
Proof.
  intros Hstep Hk.
  pose proof (Nat.div_mod_eq (stop - start + (step - 1)) step) as Hdiv.
  pose proof (Nat.mod_upper_bound (stop - start + (step - 1)) step) as Hmod.
  nia.
Qed.

Lemma chunk_count (n step : nat) :
  0 < step ->
  S ((n - step + (step - 1)) / step) = Nat.max 1 ((n + (step - 1)) / step).
Proof.
  intros Hstep.
  destruct (Nat.le_gt_cases n step) as [Hle | Hgt].
  - replace ((n - step + (step - 1)) / step) with 0
      by (symmetry; apply Nat.div_small; lia).
    assert ((n + (step - 1)) / step <= 1); [|lia].
    apply Nat.lt_succ_r. apply Nat.Div0.div_lt_upper_bound. lia.
  - replace (n + (step - 1)) with ((n - step + (step - 1)) + 1 * step) by lia.
    rewrite Nat.div_add by lia. lia.
Qed.

(** X6.  [return_message] sends [max(1, ceil(len(content) / 2000))]
    messages: every message but the last is exactly 2000 long and no
    follow-up is empty.  An empty content is still answered, with one empty
    reply. *)
Theorem return_message_count (content : text) :
  let sent := map payload (effects (return_message content)) in
  List.length sent
  = Nat.max 1 ((List.length content + (MAX_MESSAGE_LENGTH - 1))
               / MAX_MESSAGE_LENGTH)
  /\ (forall k, S k < List.length sent ->
      List.length (nth k sent []) = MAX_MESSAGE_LENGTH)
  /\ (forall k, 0 < k < List.length sent -> nth k sent [] <> []).
Proof.
  intros sent. unfold sent. rewrite return_message_effects.
  unfold effects. cbn [fst map payload]. rewrite payload_send.
  pose proof MAX_MESSAGE_LENGTH_pos as Hpos.
  set (step := MAX_MESSAGE_LENGTH) in *.
  set (n := List.length content).
  assert (forall j, j < (n - step + (step - 1)) / step ->
          nth j (map (fun i => slice content i (i + step)) (range step n step)) []
          = slice content (step + j * step) (step + j * step + step)) as Hnth.
  { intros j Hj.
    rewrite (nth_map_in _ _ 0) by (now rewrite range_length).
    now rewrite range_nth by (now rewrite range_length). }
  split; [|split].
  - cbn [List.length]. rewrite length_map, range_length.
    now apply chunk_count.
  - intros k Hk. cbn [List.length] in Hk.
    rewrite length_map, range_length in Hk.
    assert (step + k * step <= n) as Hroom.
    { destruct k as [|k].
      - pose proof (range_below step n step 0 Hpos). lia.
      - pose proof (range_below step n step (S k) Hpos). lia. }
    destruct k as [|k].
    + cbn [nth]. unfold slice. rewrite length_firstn, length_skipn.
      fold n. lia.
    + cbn [nth]. rewrite Hnth by lia. unfold slice.
      rewrite length_firstn, length_skipn. fold n.
      pose proof (range_below step n step (S k) Hpos). lia.
  - intros k [Hk0 Hk]. cbn [List.length] in Hk.
    rewrite length_map, range_length in Hk.
    destruct k as [|k]; [lia|]. cbn [nth]. rewrite Hnth by lia.
    intros Hempty. apply (f_equal (@List.length ascii)) in Hempty.
    unfold slice in Hempty.
    rewrite length_firstn, length_skipn in Hempty. fold n in Hempty.
    simpl List.length in Hempty.
    pose proof (range_below step n step k Hpos). lia.
Qed.

Lemma return_message_count_witness :
  List.length (nth 0 (map payload
                        (effects (return_message (repeat "a"%char 4500)))) [])
  = MAX_MESSAGE_LENGTH
  /\ nth 2 (map payload (effects (return_message (repeat "a"%char 4500)))) []
     <> [].
Proof.
  split.
  - apply (return_message_count (repeat "a"%char 4500)). vm_compute. lia.
  - apply (return_message_count (repeat "a"%char 4500)). vm_compute. lia.
Defined.

(** ** The translate command *)

Ltac find_reply :=
  eexists; simpl; repeat (first [left; reflexivity | right]).

(** X7.  [t] never returns in silence: on every path that ends in a
    return it has replied to the user, whatever the table, the message and
    the answers of the services. *)
Theorem t_always_answers (LANGUAGES : language_table) (ID : Z)
  (world : services) (reference : option Z) (dest_lang : option text) :
  let run := t LANGUAGES ID world reference dest_lang in
  result run = Returned tt ->
  exists content, In (Reply content) (effects run).
Proof.
  intros run. unfold run, t, result, effects.
  set (d := match dest_lang with Some given => given | None => _ end).
  unfold t_body, call.
  destruct reference as [msg_id|]; [|intros _; find_reply].
  destruct (get_lang_code LANGUAGES d) as [code|]; [|intros _; find_reply].
  destruct (fetch_message world msg_id) as [msg|e|]; cbn [bind];
    [| unfold try_except; destruct (is_Exception e); simpl; intros H;
       first [discriminate H | find_reply]
     | simpl; discriminate].
  set (msg_content := if (author_id msg =? ID)%Z then _ else _).
  destruct msg_content as [|ch more]; [intros _; find_reply|].
  destruct (single_detection world (ch :: more)) as [src|e|]; cbn [bind];
    [| unfold try_except; destruct (is_Exception e); simpl; intros H;
       first [discriminate H | find_reply]
     | simpl; discriminate].
  set (src_lang := if text_eqb src "zh" then _ else _).
  destruct (in_values LANGUAGES src_lang); cbn [negb];
    [|intros _; find_reply].
  destruct (translate world src_lang code (ch :: more)) as [translated|e|];
    cbn [bind];
    [| unfold try_except; destruct (is_Exception e); simpl; intros H;
       first [discriminate H | find_reply]
     | simpl; discriminate].
  destruct (falsy translated); [intros _; find_reply|].
  unfold title_of.
  destruct (key_from_value LANGUAGES src_lang) as [src_name|];
    [|intros _; find_reply].
  destruct (key_from_value LANGUAGES code) as [dest_name|];
    [|intros _; find_reply].
  unfold ret. cbn [bind]. rewrite return_message_effects.
  intros _. find_reply.
Qed.

(** A detection service that fails. *)
Lemma t_always_answers_witness :
  exists content,
    In (Reply content)
       (effects (t sample_languages 7
                   (mkServices
                      (fun _ => Returned (mkMessage "bonjour" 3))
                      (fun _ => Raised (mkException OtherException "timeout"))
                      (fun _ _ _ => Unmodelled))
                   (Some 11%Z) None)).
Proof.
  apply (t_always_answers sample_languages 7
           (mkServices
              (fun _ => Returned (mkMessage "bonjour" 3))
              (fun _ => Raised (mkException OtherException "timeout"))
              (fun _ _ _ => Unmodelled))
           (Some 11%Z) None).
  reflexivity.
Defined.

Lemma key_from_value_known (LANGUAGES : language_table) (code : text) :
  in_values LANGUAGES code = true ->
  exists name, key_from_value LANGUAGES code = Some name.
Proof.
  intros Hknown.
  destruct (key_from_value LANGUAGES code) as [name|] eqn:E; [eauto|].
  apply key_from_value_none in E. congruence.
Qed.

Section TranslateRun.

Variable LANGUAGES : language_table.
Variable ID : Z.
Variable world : services.
Variables (msg_id : Z) (dest_lang : option text) (dest_code : text).
Variables (msg : message) (detected translated : text).

Let msg_content := extracted_content LANGUAGES ID msg.
Let src_lang := normalized detected.

Hypothesis destination :
  get_lang_code LANGUAGES
    (match dest_lang with Some given => given | None => "en" : text end)
  = Some dest_code.
Hypothesis fetched : fetch_message world msg_id = Returned msg.
Hypothesis said : msg_content <> [].
Hypothesis detection : single_detection world msg_content = Returned detected.
Hypothesis supported : in_values LANGUAGES src_lang = true.
Hypothesis translation :
  translate world src_lang dest_code msg_content = Returned (Some translated).
Hypothesis truthy : translated <> [].

(** The run up to the translation. *)
Lemma t_reaches_formatting :
  t LANGUAGES ID world (Some msg_id) dest_lang
  = try_except
      (bind ([FetchMessage msg_id; Detect msg_content;
              Translate src_lang dest_code msg_content], Returned tt)
         (fun _ =>
            src_name <- title_of (key_from_value LANGUAGES src_lang) ;;
            dest_name <- title_of (key_from_value LANGUAGES dest_code) ;;
            return_message
              ("**" ++ translated ++ "** (" ++ src_name ++ " -> "
                    ++ dest_name ++ ")")))
      (fun e =>
         if is_Exception e then
           Some (perform (Print ("Translation Error: " ++ exc_str e)) ;;;
                 perform (Reply ("Error: Unknown." ++ nl ++ USAGE_ERROR)))
         else None).
Proof.
  unfold t. f_equal. unfold t_body. rewrite destination. unfold call at 1.
  rewrite fetched. cbn [bind].
  fold (extracted_content LANGUAGES ID msg). fold msg_content.
  destruct msg_content as [|ch more] eqn:E; [congruence|].
  unfold call at 1. rewrite detection. cbn [bind].
  fold (normalized detected). fold src_lang. rewrite supported. cbn [negb].
  unfold call. rewrite translation. cbn [bind].
  destruct translated as [|th tm] eqn:Et; [congruence|].
  cbn [falsy str_of_optional].
  destruct (title_of (key_from_value LANGUAGES src_lang)) as [done1 [a1|e1|]];
    cbn [bind]; try reflexivity.
  destruct (title_of (key_from_value LANGUAGES dest_code)) as [done2 [a2|e2|]];
    cbn [bind]; try reflexivity.
  destruct (return_message _) as [done3 o3]. reflexivity.
Qed.

(** X8.  A translation that succeeds: the source is detected on the
    extracted text, "zh" read as "zh-CN", the text is translated once and the
    result goes out through [return_message] as
    [**translated** (Source -> Destination)], both names title-cased from the
    table. *)
Theorem t_translates_and_delivers (dest_name : text) :
  key_from_value LANGUAGES dest_code = Some dest_name ->
  exists src_name,
    key_from_value LANGUAGES src_lang = Some src_name
    /\ t LANGUAGES ID world (Some msg_id) dest_lang
       = ([FetchMessage msg_id; Detect msg_content;
           Translate src_lang dest_code msg_content]
            ++ effects (return_message
                          (translation_reply translated src_name dest_name)),
          Returned tt).
Proof.
  intros Hdest.
  destruct (key_from_value_known _ _ supported) as [src_name Hsrc].
  exists src_name. split; [exact Hsrc|].
  rewrite t_reaches_formatting, Hsrc, Hdest. unfold title_of, ret.
  cbn [bind]. change ([] ++ ?x) with x.
  unfold translation_reply. rewrite return_message_effects.
  reflexivity.
Qed.

(** X9.  A destination that resolves through the special cases to a code the
    table has no name for: the message is translated, but the display name
    is missing when the reply is formatted, and the user gets the generic
    error instead of the translation. *)
Theorem t_unnamed_destination :
  in_values LANGUAGES dest_code = false ->
  t LANGUAGES ID world (Some msg_id) dest_lang
  = ([ FetchMessage msg_id; Detect msg_content;
       Translate src_lang dest_code msg_content;
       Print ("Translation Error: "
                ++ "'NoneType' object has no attribute 'title'");
       Reply ("Error: Unknown." ++ nl ++ USAGE_ERROR) ],
     Returned tt).
Proof.
  intros Hunnamed.
  destruct (key_from_value_known _ _ supported) as [src_name Hsrc].
  apply key_from_value_none in Hunnamed.
  rewrite t_reaches_formatting, Hsrc, Hunnamed. reflexivity.
Qed.

End TranslateRun.

Lemma t_translates_and_delivers_witness :
  exists src_name,
    key_from_value sample_languages (normalized "fr") = Some src_name
    /\ t sample_languages 7 (sample_world "bonjour" 3 "fr") (Some 11%Z) None
       = ([FetchMessage 11;
           Detect (extracted_content sample_languages 7 (mkMessage "bonjour" 3));
           Translate (normalized "fr") "en"
             (extracted_content sample_languages 7 (mkMessage "bonjour" 3))]
            ++ effects (return_message
                          (translation_reply "bonjour" src_name "english")),
          Returned tt).
Proof.
  apply (t_translates_and_delivers sample_languages 7
           (sample_world "bonjour" 3 "fr") 11 None "en"
           (mkMessage "bonjour" 3) "fr" "bonjour");
    solve [reflexivity | discriminate].
Defined.

(** Asking for "zh" when the table has no Chinese. *)
Lemma t_unnamed_destination_witness :
  t [ ("english" : text, "en" : text); ("french" : text, "fr" : text) ] 7
    (sample_world "bonjour" 3 "fr") (Some 11%Z) (Some ("zh" : text))
  = ([ FetchMessage 11; Detect "bonjour"; Translate "fr" "zh-CN" "bonjour";
       Print ("Translation Error: "
                ++ "'NoneType' object has no attribute 'title'");
       Reply ("Error: Unknown." ++ nl ++ USAGE_ERROR) ],
     Returned tt).
Proof.
  apply (t_unnamed_destination
           [ ("english" : text, "en" : text); ("french" : text, "fr" : text) ]
           7 (sample_world "bonjour" 3 "fr") 11 (Some ("zh" : text)) "zh-CN"
           (mkMessage "bonjour" 3) "fr" "bonjour");
    solve [reflexivity | discriminate].
Defined.

Lemma replace_char_free (c : ascii) (new s : text) :
  free_of c s = true -> replace_char c new s = s.
Proof.
  unfold replace_char. induction s as [|d s IH]; intros H.
  - reflexivity.
  - simpl in H. apply andb_true_iff in H as [Hd Hs]. cbn [flat_map].
    destruct (ascii_dec d c) as [->|_].
    + now rewrite Ascii.eqb_refl in Hd.
    + cbn [app]. f_equal. now apply IH.
Qed.

Lemma replace_char_app (c : ascii) (new a b : text) :
  replace_char c new (a ++ b) = replace_char c new a ++ replace_char c new b.
Proof. apply flat_map_app. Qed.

(** A text that starts and ends with a character that is not white space is
    not changed by [strip]. *)
Lemma strip_framed (first last : ascii) (middle : text) :
  is_space first = false -> is_space last = false ->
  strip (first :: middle ++ [last]) = first :: middle ++ [last].
Proof.
  intros Hfirst Hlast. unfold strip. cbn [lstrip]. rewrite Hfirst.
  unfold rstrip.
  replace (rev (first :: middle ++ [last]))
    with (last :: rev (first :: middle))
    by (change (first :: middle ++ [last]) with ((first :: middle) ++ [last]);
        now rewrite rev_app_distr).
  cbn [lstrip]. rewrite Hlast.
  change (last :: rev (first :: middle)) with ([last] ++ rev (first :: middle)).
  now rewrite rev_app_distr, rev_involutive.
Qed.

(** X10.  What [t] extracts from one of the bot's own translations is the
    translated text, trimmed: the emphasis and the annotation that [t] added
    are taken off again. *)
Theorem t_reads_back_translation (LANGUAGES : language_table) (ID : Z)
  (translated src_name dest_name : text) :
  In (title src_name) (titles LANGUAGES) ->
  In (title dest_name) (titles LANGUAGES) ->
  arrow_free (titles LANGUAGES) = true ->
  closes_only_at_end (titles LANGUAGES) (title dest_name) = true ->
  free_of "*" (title src_name) = true ->
  free_of "*" (title dest_name) = true ->
  free_of "*" translated = true ->
  free_of "(" translated = true ->
  extracted_content LANGUAGES ID
    (mkMessage (translation_reply translated src_name dest_name) ID)
  = strip translated.
Proof.
  intros Hsrc Hdest Harrow Hclose Hsrc_star Hdest_star Hstar Hparen.
  unfold extracted_content. cbn [author_id content]. rewrite Z.eqb_refl.
  assert (strip (translation_reply translated src_name dest_name)
          = translation_reply translated src_name dest_name) as ->.
  { unfold translation_reply.
    assert (forall a b c d e f g : text,
              a ++ b ++ c ++ d ++ e ++ f ++ g
              = (a ++ b ++ c ++ d ++ e ++ f) ++ g) as Hassoc
      by (intros; now rewrite <- !app_assoc).
    rewrite Hassoc.
    apply (strip_framed "*" ")"
             ("*"%char :: translated ++ "** (" ++ title src_name ++ " -> "
                       ++ title dest_name));
      reflexivity. }
  assert (replace_char "*" [] (translation_reply translated src_name dest_name)
          = translated ++ " " ++ annotation (title src_name) (title dest_name))
    as ->.
  { unfold translation_reply, annotation.
    rewrite !replace_char_app.
    rewrite (replace_char_free _ _ translated Hstar).
    rewrite (replace_char_free _ _ (title src_name) Hsrc_star).
    rewrite (replace_char_free _ _ (title dest_name) Hdest_star).
    reflexivity. }
  assert (alternatives LANGUAGES = titles LANGUAGES) as Halts.
  { destruct LANGUAGES; [destruct Hsrc | reflexivity]. }
  unfold strip_annotation, re_sub_annotation. rewrite Halts.
  rewrite sub_from_annotated by assumption.
  apply strip_rstrip.
Qed.

Lemma t_reads_back_translation_witness :
  extracted_content sample_languages 7
    (mkMessage (translation_reply "ni hao" "english" "chinese (simplified)") 7)
  = strip "ni hao".
Proof.
  apply (t_reads_back_translation sample_languages 7 "ni hao" "english"
           "chinese (simplified)"); try reflexivity; simpl; auto.
Defined.

(** ** The language listing *)





Lemma per_page_pos : 0 < per_page.
Proof. unfold per_page. lia. Qed.

Lemma build_pages_nth (languages : language_table) (k : nat) :
  k < page_count languages ->
  nth k (build_pages languages) []
  = page_text (S k) (page_count languages) (page_rows languages k).
Proof.
  intros Hk. unfold build_pages.
  assert (k < List.length (range 0 (List.length languages) per_page)) as Hk'
    by (rewrite range_length, Nat.sub_0_r; exact Hk).
  rewrite (nth_map_in _ _ 0) by exact Hk'.
  rewrite range_nth by exact Hk'.
  unfold render_page, page_text, page_rows. cbn [Nat.add].
  rewrite Nat.div_mul by (unfold per_page; lia).
  now rewrite Nat.add_1_r.
Qed.

(** X12.  [build_pages] makes [ceil(len(languages) / 20)] pages, numbered
    from 1 "of" that count.  Page [k] lists rows [20 k] to [20 k + 19] of the
    table: between 1 and 20 rows, and the pages together list every language
    once, in the order of the table. *)
Theorem build_pages_partition (languages : language_table) :
  List.length (build_pages languages) = page_count languages
  /\ (forall k, k < page_count languages ->
      nth k (build_pages languages) []
      = page_text (S k) (page_count languages) (page_rows languages k)
      /\ 1 <= List.length (page_rows languages k) <= per_page)
  /\ List.concat (map (page_rows languages) (seq 0 (page_count languages)))
     = languages.
Proof.
  pose proof per_page_pos as Hpos.
  split; [apply build_pages_length|]. split.
  - intros k Hk. split; [now apply build_pages_nth|].
    unfold page_rows, slice. rewrite length_firstn, length_skipn.
    unfold page_count in Hk.
    pose proof (range_below 0 (List.length languages) per_page k Hpos) as Hb.
    rewrite Nat.sub_0_r in Hb. specialize (Hb Hk). lia.
  - unfold page_rows.
    rewrite (map_ext _ (fun j => slice languages (0 + j * per_page)
                                   (0 + j * per_page + per_page)))
      by reflexivity.
    rewrite slices_concat. cbn [skipn]. apply firstn_all2.
    unfold page_count. now apply range_covers.
Qed.

Lemma build_pages_partition_witness :
  nth 2 (build_pages forty_five_languages) []
  = page_text 3 (page_count forty_five_languages)
      (page_rows forty_five_languages 2)
  /\ 1 <= List.length (page_rows forty_five_languages 2)
     <= per_page.
Proof.
  apply (build_pages_partition forty_five_languages).
  vm_compute. lia.
Defined.

(** X13.  What [l] does depends on the number of pages.  With an empty table
    there is no first page: [l] raises [IndexError] and sends nothing.  With
    one page (1 to 20 languages) it replies with that page, adds no reaction
    and returns, whatever reactions follow.  With more it replies with the
    first page, adds the reactions "previous" and "next", in that order, and
    goes on to the loop. *)
Theorem l_by_page_count (author message_id : Z) (LANGUAGES : language_table)
  (events : list reaction_add) :
  (LANGUAGES = [] ->
   l author message_id LANGUAGES events
   = ([], Raised (mkException IndexError "list index out of range")))
  /\ (1 <= List.length LANGUAGES <= per_page ->
      l author message_id LANGUAGES events
      = ([Reply (page_text 1 1 LANGUAGES)], Returned 0%Z))
  /\ (per_page < List.length LANGUAGES ->
      exists loop,
        effects (l author message_id LANGUAGES events)
        = Reply (page_text 1 (page_count LANGUAGES) (page_rows LANGUAGES 0))
            :: AddReaction Back :: AddReaction Forward :: loop
        /\ Forall (navigation_effect author) loop).
Proof.
  pose proof per_page_pos as Hpos.
  split; [|split].
  - intros ->. reflexivity.
  - intros [Hlow Hhigh].
    assert (page_count LANGUAGES = 1) as Hcount.
    { unfold page_count.
      replace (List.length LANGUAGES + (per_page - 1))
        with ((List.length LANGUAGES - 1) + 1 * per_page) by lia.
      rewrite Nat.div_add by lia. rewrite Nat.div_small by lia. reflexivity. }
    unfold l.
    assert (index (build_pages LANGUAGES) 0
            = ret (nth 0 (build_pages LANGUAGES) [])) as ->.
    { unfold index. rewrite build_pages_length, Hcount. reflexivity. }
    rewrite build_pages_length, Hcount.
    rewrite build_pages_nth by lia. rewrite Hcount.
    unfold page_rows, slice. cbn [Nat.mul Nat.add skipn].
    rewrite Nat.sub_0_r, firstn_all2 by lia. reflexivity.
  - intros Hmany.
    assert (2 <= page_count LANGUAGES) as Hcount.
    { unfold page_count.
      replace (List.length LANGUAGES + (per_page - 1))
        with ((List.length LANGUAGES - per_page - 1) + 2 * per_page) by lia.
      rewrite Nat.div_add by lia. lia. }
    rewrite l_run by (now rewrite build_pages_length).
    unfold effects. cbn [fst].
    rewrite build_pages_nth by lia.
    eexists. split; [reflexivity|].
    unfold accepted.
    generalize 0%Z as cursor.
    induction events as [|reaction later IH]; intros cursor; simpl.
    + constructor.
    + destruct (check author message_id reaction) eqn:Hcheck; [|apply IH].
      cbn [shown]. constructor; [exact I|]. constructor; [|apply IH].
      unfold check in Hcheck. cbn [navigation_effect].
      apply andb_true_iff in Hcheck as [Hcheck Hemoji].
      apply andb_true_iff in Hcheck as [Huser _].
      apply Z.eqb_eq in Huser. split; [exact Huser|].
      destruct (reaction_emoji reaction); auto. discriminate.
Qed.

Lemma l_by_page_count_witness :
  l 9 50 sample_languages [press Forward]
  = ([Reply (page_text 1 1 sample_languages)], Returned 0%Z)
  /\ exists loop,
       effects (l 9 50 forty_five_languages [press Forward])
       = Reply (page_text 1 (page_count forty_five_languages)
                  (page_rows forty_five_languages 0))
           :: AddReaction Back :: AddReaction Forward :: loop
       /\ Forall (navigation_effect 9) loop.
Proof.
  split.
  - apply (l_by_page_count 9 50 sample_languages). vm_compute. lia.
  - apply (l_by_page_count 9 50 forty_five_languages). vm_compute. lia.
Defined.

(** ** Page navigation *)

Lemma page_at_period (pages : list text) (cursor turns : Z) :
  pages <> [] ->
  page_at pages (cursor + turns * Z.of_nat (List.length pages))
  = page_at pages cursor.
Proof.
  intros Hpages. unfold page_at. rewrite Z.mod_add; [reflexivity|].
  destruct pages; [congruence | simpl List.length; lia].
Qed.

Lemma net_repeat_next (reaction : reaction_add) (n : nat) :
  (nexts (repeat reaction n) - previouses (repeat reaction n)
   = Z.of_nat n * delta reaction)%Z.
Proof.
  induction n as [|n IH].
  - reflexivity.
  - cbn [repeat]. rewrite net_cons, IH. lia.
Qed.

Lemma accepted_repeat (author message_id : Z) (reaction : reaction_add) (n : nat) :
  check author message_id reaction = true ->
  accepted author message_id (repeat reaction n) = repeat reaction n.
Proof.
  intros Hcheck. unfold accepted. induction n as [|n IH]; simpl.
  - reflexivity.
  - now rewrite Hcheck, IH.
Qed.

(** X15.  The pages form a circle: as many "next" (or as many "previous") as
    there are pages bring the page shown before back, and a "previous" undoes
    a "next". *)
Theorem navigate_full_circle (author message_id : Z) (pages : list text)
  (cursor : Z) :
  2 <= List.length pages ->
  let next := mkReaction Forward message_id author in
  let previous := mkReaction Back message_id author in
  let after events :=
    edits (effects (navigate author message_id pages cursor events)) in
  nth_error (after (repeat next (List.length pages))) (List.length pages - 1)
  = Some (page_at pages cursor)
  /\ nth_error (after (repeat previous (List.length pages)))
       (List.length pages - 1)
     = Some (page_at pages cursor)
  /\ after [next; previous]
     = [page_at pages (cursor + 1); page_at pages cursor].
Proof.
  intros Hpages next previous after.
  assert (check author message_id next = true) as Hnext
    by (unfold check, next; cbn; now rewrite !Z.eqb_refl).
  assert (check author message_id previous = true) as Hprevious
    by (unfold check, previous; cbn; now rewrite !Z.eqb_refl).
  assert (pages <> []) as Hsome by (destruct pages; [simpl in Hpages; lia | congruence]).
  assert (forall reaction,
            check author message_id reaction = true ->
            nth_error (after (repeat reaction (List.length pages)))
                      (List.length pages - 1)
            = Some (page_at pages
                      (cursor + delta reaction * Z.of_nat (List.length pages))))
    as Hturn.
  { intros reaction Hcheck. unfold after.
    rewrite (navigate_run author message_id pages Hpages).
    unfold effects. cbn [fst]. rewrite accepted_repeat by exact Hcheck.
    rewrite edits_shown_nth
      by first [exact Hpages | rewrite repeat_length; lia].
    replace (S (List.length pages - 1)) with (List.length pages) by lia.
    rewrite firstn_all2 by (rewrite repeat_length; lia).
    rewrite net_repeat_next. do 2 f_equal. lia. }
  split; [|split].
  - rewrite (Hturn next Hnext). now rewrite page_at_period.
  - rewrite (Hturn previous Hprevious). now rewrite page_at_period.
  - unfold after. cbn [navigate]. rewrite Hnext, Hprevious. cbn [reaction_emoji next previous].
    rewrite !index_mod by lia. cbn.
    replace (cursor + 1 - 1)%Z with cursor by lia. reflexivity.
Qed.

Lemma navigate_full_circle_witness :
  nth_error
    (edits (effects (navigate 9 50 sample_pages 1
                       (repeat (mkReaction Forward 50 9) 3)))) 2
  = Some ("page 2" : text).
Proof.
  apply (navigate_full_circle 9 50 sample_pages 1). simpl. lia.
Defined.

(** ** The calculate command *)

Lemma join_nil (sep : text) (parts : list text) :
  join sep parts = [] <->
  parts = [] \/ parts = [[]] \/ (sep = [] /\ Forall (fun p => p = []) parts).
Proof.
  induction parts as [|x rest IH].
  - simpl. tauto.
  - destruct rest as [|y rest'].
    + simpl. split.
      * intros ->. auto.
      * intros [H | [H | [_ H]]]; try congruence.
        now inversion H.
    + change (join sep (x :: y :: rest')) with (x ++ sep ++ join sep (y :: rest')).
      split.
      * intros H. apply app_eq_nil in H as [-> H].
        apply app_eq_nil in H as [-> H]. right. right. split; [reflexivity|].
        constructor; [reflexivity|].
        apply IH in H as [H | [H | [_ H]]]; [discriminate | | exact H].
        rewrite H. now constructor.
      * intros [H | [H | [-> H]]]; try discriminate.
        inversion H as [|? ? -> Hrest]. simpl. apply IH. auto.
Qed.

Lemma join_space_nil (parts : list text) :
  join " " parts = [] <-> parts = [] \/ parts = [[]].
Proof.
  rewrite join_nil. split.
  - intros [H | [H | [H _]]]; auto. discriminate.
  - intros [H | H]; auto.
Qed.

Lemma replace_caret_nil (s : text) : replace_char "^" "**" s = [] <-> s = [].
Proof.
  split; [|now intros ->].
  destruct s as [|ch s]; [reflexivity|]. unfold replace_char. cbn [flat_map].
  destruct (ascii_dec ch "^"); discriminate.
Qed.

(** X16.  [c] answers "No Equation Found" exactly when it is given no
    argument, or the empty string alone. *)
Theorem c_no_equation (ID : Z) (interpreter_names : namespace)
  (equation : list text) :
  c ID interpreter_names equation = ([Reply no_equation], Returned tt)
  <-> equation = [] \/ equation = [[]].
Proof.
  rewrite <- join_space_nil, <- replace_caret_nil.
  unfold c, c_body.
  destruct (replace_char "^" "**" (join " " equation)) as [|ch more] eqn:E.
  - split; [reflexivity | intros _; reflexivity].
  - split; [|discriminate]. intros H. exfalso. revert H.
    unfold no_equation.
    destruct (py_eval _ _) as [[n|kind]|x|];
      unfold lift, py_round, format_value; cbn [bind]; try discriminate.
    + destruct (List.length (str_of_int (Z.abs n)) <=? max_str_digits);
        cbn; discriminate.
    + unfold try_except.
      destruct (exc_class x) eqn:Hclass;
        try (destruct (is_Exception x)); cbn; discriminate.
Qed.

Lemma c_no_equation_witness :
  c 7 [] [[]] = ([Reply no_equation], Returned tt).
Proof.
  apply (c_no_equation 7 [] [[]]). right. reflexivity.
Defined.

Lemma then_tokens_nil (rest : option (list token)) :
  then_tokens (Some []) rest = rest.
Proof. now destruct rest. Qed.

Lemma lex_digits (digits acc rest : text) :
  forallb is_digit digits = true ->
  lex (PNum acc) (digits ++ rest) = lex (PNum (rev digits ++ acc)) rest.
Proof.
  revert acc. induction digits as [|d digits IH]; intros acc H.
  - reflexivity.
  - simpl in H. apply andb_true_iff in H as [Hd Hrest].
    cbn [app lex]. rewrite Hd, IH by exact Hrest.
    simpl rev. now rewrite <- app_assoc.
Qed.

Lemma int_literal_digits (s : text) :
  is_int_literal s = true ->
  forallb is_digit s = true /\ number_token s = Some [TNum (digits_value s)].
Proof.
  unfold is_int_literal, number_token. intros H.
  destruct s as [|d s]; [discriminate|].
  assert (forall u : text,
            forallb is_digit u && (List.length u <=? max_str_digits) = true ->
            forallb is_digit u = true
            /\ (if List.length u <=? max_str_digits
                then Some [TNum (digits_value u)] else None)
               = Some [TNum (digits_value u)]) as Hplain.
  { intros u Hu. apply andb_true_iff in Hu as [Hdigits Hlen].
    now rewrite Hlen. }
  destruct d as [[] [] [] [] [] [] [] []]; try (now apply Hplain);
    destruct s; try discriminate; now apply Hplain.
Qed.

(** A literal at the start of the text is read whole. *)
Lemma lex_int_literal (s rest : text) :
  is_int_literal s = true ->
  lex NoPending (s ++ rest) = lex (PNum (rev s)) rest.
Proof.
  intros H. destruct (int_literal_digits s H) as [Hdigits _].
  destruct s as [|d s]; [discriminate|].
  simpl in Hdigits. apply andb_true_iff in Hdigits as [Hd Hs].
  cbn [app lex]. rewrite Hd. cbn [flush]. rewrite then_tokens_nil.
  rewrite lex_digits by exact Hs. reflexivity.
Qed.


Lemma flush_int_literal (s : text) :
  is_int_literal s = true ->
  flush (PNum (rev s)) = Some [TNum (digits_value s)].
Proof.
  intros H. cbn [flush]. rewrite rev_involutive.
  now destruct (int_literal_digits s H).
Qed.


Lemma replace_caret_digits (s : text) :
  forallb is_digit s = true -> replace_char "^" "**" s = s.
Proof.
  intros H. apply replace_char_names.
  rewrite forallb_forall in *. intros ch Hin. unfold is_name_char.
  rewrite (H ch Hin). apply orb_true_r.
Qed.

(** A character that is a token by itself ends the pending token. *)
Lemma lex_operator (p : pending) (c : ascii) (rest : text) (tok : token) :
  is_digit c = false -> is_name_start c = false ->
  c <> "*"%char -> c <> " "%char -> single_token c = Some tok ->
  lex p (c :: rest)
  = then_tokens (flush p) (then_tokens (Some [tok]) (lex NoPending rest)).
Proof.
  intros Hdigit Hname Hstar Hspace Htok. cbn [lex].
  rewrite Hdigit, Hname.
  destruct (ascii_dec c "*"); [contradiction|].
  destruct (ascii_dec c " "); [contradiction|].
  now rewrite Htok.
Qed.






(** X18.  A division by zero is not answered with "Undefined": the
    [ZeroDivisionError] is not a [ValueError], so it is printed and the user
    gets the unknown-error reply. *)
Theorem c_division_by_zero (ID : Z) (interpreter_names : namespace) (a : text) :
  is_int_literal a = true ->
  c ID interpreter_names [a ++ "/0"]
  = ([Print "division by zero"; Reply unknown_error], Returned tt).
Proof.
  intros Ha. destruct (int_literal_digits a Ha) as [Hda _].
  unfold c, c_body. cbn [join]. rewrite replace_char_app.
  rewrite (replace_caret_digits a Hda).
  change (replace_char "^" "**" "/0") with ["/"%char; "0"%char].
  destruct (a ++ ["/"%char; "0"%char]) as [|ch more] eqn:E.
  { destruct a; discriminate. }
  rewrite <- E. unfold py_eval. rewrite lex_int_literal by exact Ha.
  rewrite (lex_operator _ "/" ["0"%char] TSlash)
    by (reflexivity || discriminate).
  rewrite (flush_int_literal a Ha). reflexivity.
Qed.

Lemma c_division_by_zero_witness :
  c 7 [] ["12/0" : text]
  = ([Print "division by zero"; Reply unknown_error], Returned tt).
Proof.
  apply (c_division_by_zero 7 [] "12"). reflexivity.
Defined.

(** Evaluation raises nothing but a [NameError] or a
    [ZeroDivisionError]. *)
Lemma eval_expr_raises (names : namespace) :
  forall (e : expr) (x : exception),
    eval_expr names e = Raised x ->
    exc_class x = NameError \/ exc_class x = ZeroDivisionError.
Proof.
  fix IH 1. intros [n|id|op lhs rhs|op operand|func args] x; cbn [eval_expr].
  - discriminate.
  - destruct (lookup names id); [discriminate|]. intros [= <-]. now left.
  - destruct (eval_expr names lhs) as [a|y|] eqn:El;
      [|intros [= <-]; exact (IH lhs y El) | discriminate].
    destruct (eval_expr names rhs) as [b|y|] eqn:Er;
      [|intros [= <-]; exact (IH rhs y Er) | discriminate].
    unfold apply_binop.
    destruct a as [va|ka], b as [vb|kb], op; try discriminate.
    + destruct (vb =? 0)%Z; [|discriminate]. intros [= <-]. now right.
    + destruct (0 <=? vb)%Z; discriminate.
  - destruct (eval_expr names operand) as [a|y|] eqn:Eo;
      [|intros [= <-]; exact (IH operand y Eo) | discriminate].
    unfold apply_unaryop. destruct a, op; discriminate.
  - destruct (eval_expr names func) as [a|y|] eqn:Ef;
      [|intros [= <-]; exact (IH func y Ef) | discriminate].
    clear Ef. induction args as [|arg rest IHargs].
    + discriminate.
    + destruct (eval_expr names arg) as [b|y|] eqn:Ea;
        [exact IHargs | intros [= <-]; exact (IH arg y Ea) | discriminate].
Qed.

Lemma py_eval_raises (names : namespace) (source : text) (x : exception) :
  py_eval names source = Raised x ->
  exc_class x = NameError \/ exc_class x = ZeroDivisionError.
Proof.
  unfold py_eval. destruct (lex NoPending source) as [ts|]; [|discriminate].
  destruct (parse _); [|discriminate]. apply eval_expr_raises.
Qed.

(** X19.  On the expressions the embedding covers, [c] either returns having
    replied exactly once, with the unknown-error reply exactly when one line
    was printed before it, or is left by the [AttributeError] of its
    [NameError] clause, having sent nothing. *)
Theorem c_replies_once_or_fails (ID : Z) (interpreter_names : namespace)
  (equation : list text) :
  let run := c ID interpreter_names equation in
  (result run = Returned tt ->
   (exists content, effects run = [Reply content] /\ content <> unknown_error)
   \/ (exists line, effects run = [Print line; Reply unknown_error]))
  /\ (forall e, result run = Raised e ->
      exc_class e = AttributeError /\ effects run = []).
Proof.
  intros run. unfold run, c, c_body, result, effects.
  destruct (replace_char "^" "**" (join " " equation)) as [|ch more].
  { cbn. split; [|discriminate]. intros _. left. eexists.
    split; [reflexivity | discriminate]. }
  destruct (py_eval _ _) as [[n|kind]|x|] eqn:Eeval;
    unfold lift, py_round, format_value; cbn [bind].
  - destruct (List.length (str_of_int (Z.abs n)) <=? max_str_digits);
      cbn; split; try discriminate.
    intros _. left. eexists. split; [reflexivity | discriminate].
  - cbn. split; discriminate.
  - apply py_eval_raises in Eeval. unfold try_except, is_Exception.
    destruct Eeval as [-> | ->].
    + unfold getattr_exception. cbn. split; [discriminate|].
      intros e [= <-]. auto.
    + cbn. split; [|discriminate]. intros _. right. now eexists.
  - cbn. split; discriminate.
Qed.

Lemma c_replies_once_or_fails_witness :
  exc_class (mkException AttributeError
               "'NameError' object has no attribute 'split'") = AttributeError
  /\ effects (c 7 [] ["pi*r*r" : text]) = [].
Proof.
  apply (c_replies_once_or_fails 7 [] ["pi*r*r" : text]). reflexivity.
Defined.

(** ** The echo command *)

Lemma words_from_word (w current rest : text) :
  forallb (fun ch => negb (is_space ch)) w = true ->
  words_from current (w ++ rest) = words_from (rev w ++ current) rest.
Proof.
  revert current. induction w as [|ch w IH]; intros current H.
  - reflexivity.
  - simpl in H. apply andb_true_iff in H as [Hch Hw].
    apply negb_true_iff in Hch. cbn [app words_from]. rewrite Hch.
    rewrite IH by exact Hw. simpl rev. now rewrite <- app_assoc.
Qed.

Lemma words_from_separated (w rest : text) :
  is_word w = true ->
  words_from [] (w ++ " "%char :: rest) = w :: words_from [] rest.
Proof.
  unfold is_word. intros H. apply andb_true_iff in H as [Hsome Hplain].
  rewrite words_from_word by exact Hplain. rewrite app_nil_r.
  cbn [words_from]. change (is_space " ") with true. cbv iota.
  destruct (rev w) eqn:E.
  - apply (f_equal (@rev ascii)) in E. rewrite rev_involutive in E.
    subst w. discriminate.
  - now rewrite <- E, rev_involutive.
Qed.

Lemma words_from_last (w : text) :
  is_word w = true -> words_from [] w = [w].
Proof.
  unfold is_word. intros H. apply andb_true_iff in H as [Hsome Hplain].
  rewrite <- (app_nil_r w) at 1.
  rewrite words_from_word by exact Hplain. rewrite app_nil_r.
  cbn [words_from].
  destruct (rev w) eqn:E.
  - apply (f_equal (@rev ascii)) in E. rewrite rev_involutive in E.
    subst w. discriminate.
  - now rewrite <- E, rev_involutive.
Qed.

(** Splitting what [join] made of words gives the words back. *)
Lemma split_join (words : list text) :
  forallb is_word words = true -> split (join " " words) = words.
Proof.
  unfold split. induction words as [|w rest IH]; intros H.
  - reflexivity.
  - simpl in H. apply andb_true_iff in H as [Hw Hrest].
    destruct rest as [|w2 rest].
    + cbn [join]. now apply words_from_last.
    + change (join " " (w :: w2 :: rest))
        with (w ++ " "%char :: join " " (w2 :: rest)).
      rewrite words_from_separated by exact Hw. f_equal. now apply IH.
Qed.

(** X20.  [e] replies exactly once.  Without an argument (or
    with the empty string alone) the reply is the error; otherwise it is the
    arguments joined by single spaces, so that splitting the reply gives the
    user's words back. *)
Theorem e_echoes (string : list text) :
  (string = [] \/ string = [[]] ->
   e string = ([Reply invalid_string], Returned tt))
  /\ (string <> [] -> string <> [[]] ->
      e string = ([Reply (join " " string)], Returned tt))
  /\ (string <> [] -> forallb is_word string = true ->
      exists said, e string = ([Reply said], Returned tt)
                   /\ split said = string).
Proof.
  assert (string <> [] -> string <> [[]] ->
          e string = ([Reply (join " " string)], Returned tt)) as Hecho.
  { intros Hsome Hword. unfold e.
    destruct (join " " string) as [|ch more] eqn:E; [|reflexivity].
    apply join_space_nil in E. tauto. }
  split; [|split].
  - intros [-> | ->]; reflexivity.
  - exact Hecho.
  - intros Hsome Hwords. exists (join " " string). split.
    + apply Hecho; [exact Hsome|]. intros ->. discriminate.
    + now apply split_join.
Qed.

Lemma e_echoes_witness :
  exists said,
    e ["hello" : text; "world" : text] = ([Reply said], Returned tt)
    /\ split said = ["hello" : text; "world" : text].
Proof.
  apply (e_echoes ["hello" : text; "world" : text]).
  - discriminate.
  - reflexivity.
Defined.

(** ** Keys *)

Lemma py_int_raises (s : text) (x : exception) :
  py_int s = Raised x -> exc_class x = ValueError.
Proof.
  unfold py_int. destruct (negb (forallb is_ascii s)); [discriminate|].
  destruct (rev (skip_c_space (rev (skip_c_space s)))) as [|ch body].
  - cbn. intros [= <-]. reflexivity.
  - destruct (match ch :: body with
              | "-"%char :: body0 => (true, body0)
              | "+"%char :: body0 => (false, body0)
              | _ => (false, ch :: body)
              end) as [negative digits].
    destruct (grouped_digits false digits) as [ds|].
    + destruct (List.length ds <=? max_str_digits); discriminate.
    + intros [= <-]. reflexivity.
Qed.

(** X21.  [fetch_key] has two ways out.  It returns the key, as it is or as
    the integer it denotes, having printed nothing; or it prints one line and
    exits with [err_code].  A missing key always takes the second way, and so
    does a key that is asked for as an integer and does not denote one. *)
Theorem fetch_key_outcome (getenv : environment) (key_name : text)
  (err_msg : option text) (err_code : option Z) (to_int : option bool) :
  let run := fetch_key getenv key_name err_msg err_code to_int in
  let code := match err_code with Some given => given | None => (-1)%Z end in
  let as_int := match to_int with Some given => given | None => false end in
  (forall k, result run = Returned k ->
   effects run = []
   /\ exists s, getenv key_name = Some s
      /\ (if as_int then exists n, k = KInt n /\ py_int s = Returned n
          else k = KStr s))
  /\ (forall x, result run = Raised x ->
      x = system_exit code /\ exists line, effects run = [Print line])
  /\ (getenv key_name = None -> result run = Raised (system_exit code))
  /\ (forall s x, getenv key_name = Some s -> as_int = true ->
      py_int s = Raised x -> result run = Raised (system_exit code)).
Proof.
  intros run code as_int. unfold run, fetch_key. fold code. fold as_int.
  destruct (getenv key_name) as [s|] eqn:Henv.
  - destruct as_int.
    + destruct (py_int s) as [n|x|] eqn:Hint; unfold lift; cbn [bind].
      * cbn. split; [|split; [|split]].
        -- intros k [= <-]. split; [reflexivity|]. exists s. eauto.
        -- discriminate.
        -- discriminate.
        -- intros s0 x0 [= <-]. congruence.
      * pose proof (py_int_raises s x Hint) as Hclass.
        unfold try_except. rewrite Hclass. cbn.
        split; [|split; [|split]].
        -- discriminate.
        -- intros y [= <-]. eauto.
        -- discriminate.
        -- reflexivity.
      * cbn. split; [|split; [|split]]; try discriminate.
        intros s0 x0 [= <-]. congruence.
    + cbn. split; [|split; [|split]]; try discriminate.
      intros k [= <-]. split; [reflexivity|]. exists s. auto.
  - cbn. split; [|split; [|split]]; try discriminate.
    + intros y [= <-]. eauto.
    + reflexivity.
Qed.

Lemma fetch_key_outcome_witness :
  result (fetch_key (fun _ => None) "BOT_TOKEN"
            (Some ("BOT TOKEN ERROR" : text)) (Some 1%Z) None)
  = Raised (system_exit 1)
  /\ result (fetch_key (fun _ => Some ("12x" : text)) "BOT_ID"
               (Some ("BOT ID ERROR" : text)) (Some 2%Z) (Some true))
     = Raised (system_exit 2).
Proof.
  split.
  - apply (fetch_key_outcome (fun _ => None) "BOT_TOKEN"
             (Some ("BOT TOKEN ERROR" : text)) (Some 1%Z) None).
    reflexivity.
  - apply (proj2 (proj2 (proj2
             (fetch_key_outcome (fun _ => Some ("12x" : text)) "BOT_ID"
                (Some ("BOT ID ERROR" : text)) (Some 2%Z) (Some true))))
             ("12x" : text)
             (mkException ValueError
                "invalid literal for int() with base 10: '12x'"));
      reflexivity.
Defined.

Section KeyRuns.

Variable getenv : environment.
Variables (key_name err_msg : text) (err_code : Z).

Lemma fetch_key_missing (to_int : option bool) :
  getenv key_name = None ->
  fetch_key getenv key_name (Some err_msg) (Some err_code) to_int
  = ([Print (err_msg ++ nl ++ "Error: Key Does Not Exist")],
     Raised (system_exit err_code)).
Proof.
  intros Henv. unfold fetch_key. rewrite Henv. reflexivity.
Qed.

Lemma fetch_key_text (s : text) :
  getenv key_name = Some s ->
  fetch_key getenv key_name (Some err_msg) (Some err_code) None
  = ([], Returned (KStr s)).
Proof.
  intros Henv. unfold fetch_key. rewrite Henv. reflexivity.
Qed.

Lemma fetch_key_integer (s : text) (n : Z) :
  getenv key_name = Some s -> py_int s = Returned n ->
  fetch_key getenv key_name (Some err_msg) (Some err_code) (Some true)
  = ([], Returned (KInt n)).
Proof.
  intros Henv Hint. unfold fetch_key. rewrite Henv, Hint. reflexivity.
Qed.

Lemma fetch_key_not_integer (s : text) (x : exception) :
  getenv key_name = Some s -> py_int s = Raised x ->
  fetch_key getenv key_name (Some err_msg) (Some err_code) (Some true)
  = ([Print (err_msg ++ nl ++ "Error: Concatenation Failed" ++ nl
                     ++ exc_str x)],
     Raised (system_exit err_code)).
Proof.
  intros Henv Hint. unfold fetch_key. rewrite Henv, Hint.
  unfold lift. cbn [bind]. unfold try_except.
  rewrite (py_int_raises s x Hint). reflexivity.
Qed.

End KeyRuns.

(** X22.  Loading the module fetches the token, the bot's id and the API key
    in that order and stops at the first that fails, with an exit code that
    tells which: 1 for a missing token, 2 for an id that is missing or is not
    an integer, 3 for a missing API key.  With all three in place nothing is
    printed. *)
Theorem fetch_keys_exit_code (getenv : environment) :
  let run := fetch_keys getenv in
  (getenv "BOT_TOKEN" = None -> result run = Raised (system_exit 1))
  /\ (forall token, getenv "BOT_TOKEN" = Some token ->
      (getenv "BOT_ID" = None
       \/ exists s x, getenv "BOT_ID" = Some s /\ py_int s = Raised x) ->
      result run = Raised (system_exit 2))
  /\ (forall token s n,
      getenv "BOT_TOKEN" = Some token -> getenv "BOT_ID" = Some s ->
      py_int s = Returned n ->
      (getenv "LANGUAGE_DETECTION_API_KEY" = None ->
       result run = Raised (system_exit 3))
      /\ (forall api_key,
          getenv "LANGUAGE_DETECTION_API_KEY" = Some api_key ->
          run = ([], Returned (KStr token, KInt n, KStr api_key))))
  /\ NoDup [system_exit 1; system_exit 2; system_exit 3].
Proof.
  intros run. unfold run, fetch_keys. split; [|split; [|split]].
  - intros Htoken. now rewrite fetch_key_missing.
  - intros token Htoken Hid. rewrite (fetch_key_text _ _ _ _ token Htoken).
    cbn [bind]. destruct Hid as [Hid | [s [x [Hid Hint]]]].
    + now rewrite fetch_key_missing.
    + now rewrite (fetch_key_not_integer _ _ _ _ s x Hid Hint).
  - intros token s n Htoken Hid Hint.
    rewrite (fetch_key_text _ _ _ _ token Htoken). cbn [bind].
    rewrite (fetch_key_integer _ _ _ _ s n Hid Hint). cbn [bind].
    split.
    + intros Hkey. now rewrite fetch_key_missing.
    + intros api_key Hkey. now rewrite (fetch_key_text _ _ _ _ api_key Hkey).
  - repeat constructor; simpl; intuition discriminate.
Qed.

(** An environment with a token and an id that is not a number. *)
Lemma fetch_keys_exit_code_witness :
  result (fetch_keys (fun name => if text_eqb name "BOT_TOKEN"
                                  then Some ("abc" : text)
                                  else if text_eqb name "BOT_ID"
                                       then Some ("twelve" : text)
                                       else None))
  = Raised (system_exit 2).
Proof.
  apply (proj1 (proj2 (fetch_keys_exit_code _)) ("abc" : text)).
  - reflexivity.
  - right. eexists. eexists. split; reflexivity.
Defined.

(** *** [int] reads what [str] writes *)

Lemma uint_digits (d : Decimal.uint) :
  forallb is_digit (list_ascii_of_string (NilEmpty.string_of_uint d)) = true.
Proof. induction d; simpl; auto. Qed.

Lemma uint_value_from (d : Decimal.uint) (acc : positive) :
  fold_left (fun a ch => (10 * a + digit_value ch)%Z)
            (list_ascii_of_string (NilEmpty.string_of_uint d)) (Z.pos acc)
  = Z.pos (Pos.of_uint_acc d acc).
Proof.
  revert acc. induction d; intros acc;
    cbn [NilEmpty.string_of_uint list_ascii_of_string fold_left
         Pos.of_uint_acc];
    [reflexivity
    | rewrite <- IHd; f_equal;
      match goal with
      | |- context [digit_value ?ch] =>
          let v := eval vm_compute in (digit_value ch) in
          change (digit_value ch) with v
      end; lia ..].
Qed.

Lemma uint_value (d : Decimal.uint) :
  digits_value (list_ascii_of_string (NilEmpty.string_of_uint d))
  = Z.of_N (Pos.of_uint d).
Proof.
  unfold digits_value. induction d;
    cbn [NilEmpty.string_of_uint list_ascii_of_string fold_left Pos.of_uint];
    [reflexivity | exact IHd | apply (uint_value_from d) ..].
Qed.

Lemma str_of_int_pos (p : positive) :
  str_of_int (Z.pos p)
  = list_ascii_of_string (NilEmpty.string_of_uint (Pos.to_uint p)).
Proof.
  unfold str_of_int. cbn [Z.to_int NilZero.string_of_int].
  unfold NilZero.string_of_uint.
  pose proof (Unsigned.to_uint_nonnil p) as Hnonnil.
  now destruct (Pos.to_uint p).
Qed.

Lemma str_of_int_neg (p : positive) :
  str_of_int (Z.neg p) = "-"%char :: str_of_int (Z.pos p).
Proof.
  rewrite str_of_int_pos. unfold str_of_int.
  cbn [Z.to_int NilZero.string_of_int list_ascii_of_string].
  unfold NilZero.string_of_uint.
  pose proof (Unsigned.to_uint_nonnil p) as Hnonnil.
  now destruct (Pos.to_uint p).
Qed.

Lemma digit_is_ascii (ch : ascii) : is_digit ch = true -> is_ascii ch = true.
Proof.
  destruct ch as [[] [] [] [] [] [] [] []]; intros H;
    solve [reflexivity | discriminate H].
Qed.

Lemma digit_not_c_space (ch : ascii) :
  is_digit ch = true -> is_c_space ch = false.
Proof.
  destruct ch as [[] [] [] [] [] [] [] []]; intros H;
    solve [reflexivity | discriminate H].
Qed.

Lemma grouped_digits_plain (digits : text) (after_digit : bool) :
  forallb is_digit digits = true ->
  digits <> [] \/ after_digit = true ->
  grouped_digits after_digit digits = Some digits.
Proof.
  revert after_digit. induction digits as [|ch digits IH];
    intros after_digit Hdigits Hsome.
  - destruct Hsome as [H | ->]; [congruence | reflexivity].
  - simpl in Hdigits. apply andb_true_iff in Hdigits as [Hch Hrest].
    cbn [grouped_digits]. rewrite Hch. now rewrite IH by auto.
Qed.

(** A text that ends in a digit has no white space to trim at its end. *)
Lemma skip_c_space_rev (s : text) (ch : ascii) :
  is_digit ch = true -> skip_c_space (rev (s ++ [ch])) = rev (s ++ [ch]).
Proof.
  intros Hch. rewrite rev_app_distr. cbn [rev app skip_c_space].
  now rewrite (digit_not_c_space ch Hch).
Qed.

Lemma py_int_digits (sign digits : text) (negative : bool) :
  forallb is_digit digits = true -> digits <> [] ->
  List.length digits <= max_str_digits ->
  (sign = [] /\ negative = false) \/ (sign = ["-"%char] /\ negative = true) ->
  py_int (sign ++ digits)
  = Returned (if negative then (- digits_value digits)%Z
              else digits_value digits).
Proof.
  intros Hdigits Hsome Hlen Hsign.
  destruct (last_or_nil digits) as [-> | [front [final ->]]]; [congruence|].
  assert (is_digit final = true) as Hfinal.
  { rewrite forallb_app in Hdigits.
    apply andb_true_iff in Hdigits as [_ H]. simpl in H.
    now rewrite andb_true_r in H. }
  assert (forallb is_ascii (sign ++ front ++ [final]) = true) as Hascii.
  { rewrite forallb_app. apply andb_true_iff. split.
    - destruct Hsign as [[-> _] | [-> _]]; reflexivity.
    - rewrite forallb_forall in *. intros ch Hin.
      now apply digit_is_ascii, Hdigits. }
  assert (skip_c_space (sign ++ front ++ [final]) = sign ++ front ++ [final])
    as Hleft.
  { destruct Hsign as [[-> _] | [-> _]]; [|reflexivity]. cbn [app].
    destruct front as [|ch front]; cbn [app skip_c_space].
    - now rewrite (digit_not_c_space final Hfinal).
    - simpl in Hdigits. apply andb_true_iff in Hdigits as [Hch _].
      now rewrite (digit_not_c_space ch Hch). }
  unfold py_int. rewrite Hascii. cbn [negb]. rewrite Hleft.
  rewrite app_assoc, skip_c_space_rev by exact Hfinal.
  rewrite rev_involutive, <- app_assoc.
  apply Nat.leb_le in Hlen.
  destruct Hsign as [[-> ->] | [-> ->]].
  - cbn [app].
    assert (match front ++ [final] with
            | "-"%char :: body => (true, body)
            | "+"%char :: body => (false, body)
            | _ => (false, front ++ [final])
            end = (false, front ++ [final])) as ->.
    { destruct (front ++ [final]) as [|ch rest] eqn:E; [reflexivity|].
      assert (is_digit ch = true) as Hch
        by (simpl in Hdigits; now apply andb_true_iff in Hdigits as [H _]).
      destruct ch as [[] [] [] [] [] [] [] []];
        solve [reflexivity | discriminate Hch]. }
    rewrite grouped_digits_plain by auto. now rewrite Hlen.
  - cbn [app]. rewrite grouped_digits_plain by auto. now rewrite Hlen.
Qed.

(** X23.  [int] reads back what [str] writes: a key that is the decimal
    form of an integer is fetched as that integer. *)
Theorem fetch_key_reads_integer (getenv : environment)
  (key_name err_msg : text) (err_code n : Z) :
  List.length (str_of_int (Z.abs n)) <= max_str_digits ->
  py_int (str_of_int n) = Returned n
  /\ (getenv key_name = Some (str_of_int n) ->
      fetch_key getenv key_name (Some err_msg) (Some err_code) (Some true)
      = ([], Returned (KInt n))).
Proof.
  intros Hlen.
  assert (py_int (str_of_int n) = Returned n) as Hint.
  { assert (forall p : positive,
              Pos.to_uint p <> Decimal.Nil ->
              list_ascii_of_string (NilEmpty.string_of_uint (Pos.to_uint p))
              <> []) as Hsome
      by (intros p Hp; destruct (Pos.to_uint p); [congruence | discriminate ..]).
    destruct n as [|p|p].
    - reflexivity.
    - cbn [Z.abs] in Hlen. rewrite str_of_int_pos in *.
      pose proof (py_int_digits [] _ false (uint_digits (Pos.to_uint p))
                    (Hsome p (Unsigned.to_uint_nonnil p)) Hlen
                    (or_introl (conj eq_refl eq_refl))) as H.
      cbn [app] in H. rewrite H, uint_value, Unsigned.of_to. reflexivity.
    - cbn [Z.abs] in Hlen. rewrite str_of_int_neg, str_of_int_pos in *.
      pose proof (py_int_digits ["-"%char] _ true (uint_digits (Pos.to_uint p))
                    (Hsome p (Unsigned.to_uint_nonnil p)) Hlen
                    (or_intror (conj eq_refl eq_refl))) as H.
      cbn [app] in H. rewrite H, uint_value, Unsigned.of_to. reflexivity. }
  split; [exact Hint|]. intros Henv.
  now apply (fetch_key_integer getenv key_name err_msg err_code
               (str_of_int n) n).
Qed.

Lemma fetch_key_reads_integer_witness :
  fetch_key (fun _ => Some (str_of_int (-1036))) "BOT_ID"
    (Some ("BOT ID ERROR" : text)) (Some 2%Z) (Some true)
  = ([], Returned (KInt (-1036))).
Proof.
  apply (fetch_key_reads_integer (fun _ => Some (str_of_int (-1036)))
           "BOT_ID" "BOT ID ERROR" 2 (-1036)).
  - vm_compute. lia.
  - reflexivity.
Defined.
